(** * Bone-name matching of the retargeting pipeline

    A shallow embedding of [src/retarget/BoneAutoMapper.ts] (the generic
    fuzzy mapper) and [src/retarget/bone-automap/MixamoMapper.ts] (the direct
    table mapper), with the properties the specification states about them.

    Conventions of the embedding.
    - A JavaScript string is the list of its UTF-16 code units.  The
      development covers the code units U+0000..U+00FF, one [ascii] each
      (every bone name of the table and of the examples is ASCII); on that
      range [toLowerCase], [\s], [\w] and the [/i] flag are the functions
      written below.
    - A JavaScript number is a binary64 float ([PrimFloat.float]).  Lengths,
      loop counters and the cells of the distance matrix are integers far
      below 2^53, on which [+ 1] and [Math.min] are exact; they are kept as
      [nat] and turned into floats where the source divides.
    - A [Map<string, string>] is the list of its entries in insertion order.
*)

From Stdlib Require Import String Ascii.
From Stdlib Require Import List Bool Arith Lia ZArith.
From Stdlib Require Import Floats Uint63.
Import ListNotations.

Set Warnings "-inexact-float".

(* ================================================================= *)
(** ** Strings *)

Module JsString.

Definition jsstring := list ascii.

(** A string literal as a list of code units. *)
Definition str (s : String.string) : jsstring := String.list_ascii_of_string s.

Definition code (c : ascii) : nat := nat_of_ascii c.

Definition in_range (lo hi : nat) (c : ascii) : bool :=
  (lo <=? code c) && (code c <=? hi).

(** [String.prototype.toLowerCase] on one code unit: A-Z, U+00C0..U+00D6 and
    U+00D8..U+00DE move up by 32, everything else stays. *)
Definition lower_char (c : ascii) : ascii :=
  if in_range 65 90 c || in_range 192 214 c || in_range 216 222 c
  then ascii_of_nat (code c + 32)
  else c.

Definition toLowerCase (s : jsstring) : jsstring := map lower_char s.

(** [\w] is [A-Za-z0-9_]. *)
Definition is_word_char (c : ascii) : bool :=
  in_range 48 57 c || in_range 65 90 c || in_range 97 122 c || (code c =? 95).

(** [\s]: tab, line feed, vertical tab, form feed, carriage return, space
    and the no-break space U+00A0. *)
Definition is_space (c : ascii) : bool :=
  in_range 9 13 c || (code c =? 32) || (code c =? 160).

(** The [/i] flag compares canonical forms.  An ASCII letter canonicalizes
    to its capital; a code unit from U+0080 up never canonicalizes below
    U+0080, so against the ASCII letters of a pattern it can stay in place. *)
Definition canonicalize (c : ascii) : ascii :=
  if in_range 97 122 c then ascii_of_nat (code c - 32) else c.

Definition char_eqb_ci (a b : ascii) : bool :=
  Ascii.eqb (canonicalize a) (canonicalize b).

(** [a === b] on strings. *)
Fixpoint str_eqb (a b : jsstring) : bool :=
  match a, b with
  | [], [] => true
  | x :: a', y :: b' => Ascii.eqb x y && str_eqb a' b'
  | _, _ => false
  end.

(** [s.startsWith(p)], and the same under [/i]. *)
Fixpoint starts_with (p s : jsstring) : bool :=
  match p, s with
  | [], _ => true
  | x :: p', y :: s' => Ascii.eqb x y && starts_with p' s'
  | _ :: _, [] => false
  end.

Fixpoint starts_with_ci (p s : jsstring) : bool :=
  match p, s with
  | [], _ => true
  | x :: p', y :: s' => char_eqb_ci x y && starts_with_ci p' s'
  | _ :: _, [] => false
  end.

Definition ends_with (p s : jsstring) : bool :=
  starts_with (rev p) (rev s).

(** [s.includes(sub)]: [sub] occurs at some index of [s]. *)
Fixpoint includes (s sub : jsstring) : bool :=
  starts_with sub s ||
  match s with
  | [] => false
  | _ :: s' => includes s' sub
  end.

End JsString.

Import JsString.

(* ================================================================= *)
(** ** Regular-expression replacements used by the normalizer *)

Module Regex.

Definition underscore : ascii := "_"%char.

(** The class [[-.\s]]. *)
Definition is_separator (c : ascii) : bool :=
  (code c =? 45) || (code c =? 46) || is_space c.

(** [s.replace(/[-.\s]/g, '_')]. *)
Definition replace_class (cls : ascii -> bool) (r : ascii) (s : jsstring) : jsstring :=
  map (fun c => if cls c then r else c) s.

(** An anchored alternation [/^(p1|p2|...)/i]: the alternatives are tried
    from left to right and the first one that matches at index 0 is the
    match (nothing follows the group, so no later alternative is retried). *)
Definition matched_alternative (alts : list jsstring) (s : jsstring) : option jsstring :=
  find (fun p => starts_with_ci p s) alts.

(** [s.replace(/^(p1|p2|...)/i, '')]: without the [g] flag, one match. *)
Definition strip_alternative (alts : list jsstring) (s : jsstring) : jsstring :=
  match matched_alternative alts s with
  | Some p => skipn (length p) s
  | None => s
  end.

Definition head_is_word (s : jsstring) : bool :=
  match s with
  | c :: _ => is_word_char c
  | [] => false
  end.

(** [\b] between a previous code unit ([prev]: it exists and is a word
    character) and the rest [s] of the input. *)
Definition word_boundary (prev : bool) (s : jsstring) : bool :=
  xorb prev (head_is_word s).

(** The literal [w] followed by [\b], read at the head of [s]. *)
Fixpoint literal_then_boundary (w : jsstring) (prev : bool) (s : jsstring) : bool :=
  match w with
  | [] => word_boundary prev s
  | a :: w' =>
      match s with
      | c :: s' => Ascii.eqb a c && literal_then_boundary w' (is_word_char c) s'
      | [] => false
      end
  end.

(** [/\bw\b/] matches at the head of [s]. *)
Definition matches_word (w : jsstring) (prev : bool) (s : jsstring) : bool :=
  word_boundary prev s && literal_then_boundary w prev s.

(** [s.replace(/\bw\b/g, r)]: the scan goes left to right; at a match the
    replacement is emitted and the scan resumes after the match ([skip]
    counts the code units of the match still to pass), otherwise the code
    unit is copied. *)
Fixpoint replace_words_from (w r : jsstring) (prev : bool) (skip : nat)
    (s : jsstring) : jsstring :=
  match s with
  | [] => []
  | c :: s' =>
      match skip with
      | S k => replace_words_from w r (is_word_char c) k s'
      | O =>
          if matches_word w prev s
          then r ++ replace_words_from w r (is_word_char c) (length w - 1) s'
          else c :: replace_words_from w r (is_word_char c) 0 s'
      end
  end.

Definition replace_whole_word (w r s : jsstring) : jsstring :=
  replace_words_from w r false 0 s.

(** [s.replace(/^p/g, r)]: [^] holds at index 0 only, so at most one match. *)
Definition replace_leading (p r s : jsstring) : jsstring :=
  if starts_with p s then r ++ skipn (length p) s else s.

(** [s.replace(/p$/g, r)]: [$] holds at the end of the input only. *)
Definition replace_trailing (p r s : jsstring) : jsstring :=
  if ends_with p s then firstn (length s - length p) s ++ r else s.

End Regex.

Import Regex.

(* ================================================================= *)
(** ** Numbers, arrays and maps *)

Module JsNumber.

(** The double that holds the integer [n], a length or a distance; these
    stay below 2^53, well inside the 63 bits of the conversion. *)
Definition of_nat (n : nat) : float :=
  PrimFloat.of_uint63 (Uint63.of_Z (Z.of_nat n)).

(** ECMAScript bounds the length of a string by 2^53 - 1. *)
Definition max_string_length : Z := 2 ^ 53 - 1.

End JsNumber.

Module JsArray.

(** A [number[]] as the partial function from an index to the number stored
    there; a [number[][]] likewise, from a row index to the row. *)
Definition row := nat -> option nat.
Definition matrix := nat -> option row.

Definition empty_matrix : matrix := fun _ => None.

(** The literal [[v]]. *)
Definition singleton (v : nat) : row :=
  fun j => if j =? 0 then Some v else None.

Definition row_set (r : row) (j v : nat) : row :=
  fun j' => if j' =? j then Some v else r j'.

(** [matrix[i] = r]. *)
Definition set_row (m : matrix) (i : nat) (r : row) : matrix :=
  fun i' => if i' =? i then Some r else m i'.

(** [matrix[i][j]]; [None] when the row or the cell was never written
    (JavaScript raises a TypeError for the row and yields [undefined] for
    the cell: in both cases no number comes out). *)
Definition get (m : matrix) (i j : nat) : option nat :=
  match m i with
  | Some r => r j
  | None => None
  end.

(** [matrix[i][j] = v]; [None] when row [i] was never written. *)
Definition set (m : matrix) (i j v : nat) : option matrix :=
  match m i with
  | Some r => Some (set_row m i (row_set r j v))
  | None => None
  end.

(** [for (let i = lo; i <= hi; i++) body], over a state that a failed access
    turns into [None]. *)
Definition for_each {St : Type} (indices : list nat) (body : nat -> St -> option St)
    (s : St) : option St :=
  fold_left
    (fun acc i => match acc with Some st => body i st | None => None end)
    indices (Some s).

Definition from_to (lo hi : nat) : list nat := seq lo (S hi - lo).

End JsArray.

Module JsMap.

(** A [Map<string, string>]: its entries, oldest first. *)
Definition t := list (jsstring * jsstring).

Definition empty : t := [].

(** [m.set(k, v)]: a present key keeps its place and takes the new value, a
    new key goes last. *)
Fixpoint set (m : t) (k v : jsstring) : t :=
  match m with
  | [] => [(k, v)]
  | (k', v') :: m' =>
      if str_eqb k' k then (k', v) :: m' else (k', v') :: set m' k v
  end.

(** [m.get(k)]. *)
Fixpoint get (m : t) (k : jsstring) : option jsstring :=
  match m with
  | [] => None
  | (k', v') :: m' => if str_eqb k' k then Some v' else get m' k
  end.

End JsMap.

(* ================================================================= *)
(** ** BoneAutoMapper *)

Module BoneAutoMapper.

Import JsArray.

(** The alternatives of [/^(mixamorig|mixamorig_|rig_|bone_|jnt_|joint_)/i],
    in the order of the source. *)
Definition rig_prefixes : list jsstring :=
  map str ["mixamorig"; "mixamorig_"; "rig_"; "bone_"; "jnt_"; "joint_"]%string.

Definition replace_separators (s : jsstring) : jsstring :=
  replace_class is_separator underscore s.

Definition strip_rig_prefix (s : jsstring) : jsstring :=
  strip_alternative rig_prefixes s.

(** [replace(/\bleft\b/g, 'l')], then [replace(/\bright\b/g, 'r')]. *)
Definition shorten_sides (normalized : jsstring) : jsstring :=
  let normalized := replace_whole_word (str "left") (str "l") normalized in
  replace_whole_word (str "right") (str "r") normalized.

(** [replace(/^l_/g, 'left_')], [replace(/^r_/g, 'right_')],
    [replace(/_l$/g, '_left')], then [replace(/_r$/g, '_right')]. *)
Definition expand_sides (normalized : jsstring) : jsstring :=
  let normalized := replace_leading (str "l_") (str "left_") normalized in
  let normalized := replace_leading (str "r_") (str "right_") normalized in
  let normalized := replace_trailing (str "_l") (str "_left") normalized in
  replace_trailing (str "_r") (str "_right") normalized.

(** [normalize_bone_name], in the order of its statements: lowercase,
    separators, rig prefix, whole-word sides, anchored side markers. *)
Definition normalize_bone_name (bone_name : jsstring) : jsstring :=
  let normalized := toLowerCase bone_name in
  let normalized := replace_separators normalized in
  let normalized := strip_rig_prefix normalized in
  let normalized := shorten_sides normalized in
  expand_sides normalized.

(** [Math.min] of the three candidates. *)
Definition min3 (a b c : nat) : nat := Nat.min (Nat.min a b) c.

(** [str1[i - 1] === str2[j - 1]]: an index outside a string reads
    [undefined], which is [None] here. *)
Definition same_char (str1 str2 : jsstring) (i j : nat) : bool :=
  match nth_error str1 (i - 1), nth_error str2 (j - 1) with
  | Some a, Some b => Ascii.eqb a b
  | None, None => true
  | _, _ => false
  end.

(** The body of the inner loop: one cell of the matrix. *)
Definition fill_cell (str1 str2 : jsstring) (i j : nat) (m : matrix) : option matrix :=
  let cost := if same_char str1 str2 i j then 0 else 1 in
  match get m (i - 1) j, get m i (j - 1), get m (i - 1) (j - 1) with
  | Some deletion, Some insertion, Some substitution =>
      set m i j (min3 (deletion + 1) (insertion + 1) (substitution + cost))
  | _, _, _ => None
  end.

(** [levenshtein_distance]: the three loops over the matrix, then
    [matrix[len1][len2]].  [None] stands for a run that reads a cell it never
    wrote; [levenshtein_distance_lev] shows that there is none. *)
Definition levenshtein_distance (str1 str2 : jsstring) : option nat :=
  let len1 := length str1 in
  let len2 := length str2 in
  match for_each (from_to 0 len1) (fun i m => Some (set_row m i (singleton i)))
          empty_matrix with
  | None => None
  | Some m1 =>
  match for_each (from_to 0 len2) (fun j m => set m 0 j j) m1 with
  | None => None
  | Some m2 =>
  match for_each (from_to 1 len1)
          (fun i m => for_each (from_to 1 len2) (fill_cell str1 str2 i) m) m2 with
  | None => None
  | Some m3 => get m3 len1 len2
  end end end.

(** [calculate_similarity]: exact match, containment, then edit distance
    (arithmetic on a distance that is no number would give [NaN]). *)
Definition calculate_similarity (name1 name2 : jsstring) : float :=
  if str_eqb name1 name2 then 1.0%float
  else if includes name1 name2 || includes name2 name1 then
    let longer := Nat.max (length name1) (length name2) in
    let shorter := Nat.min (length name1) (length name2) in
    (0.8 + (JsNumber.of_nat shorter / JsNumber.of_nat longer) * 0.2)%float
  else
    match levenshtein_distance name1 name2 with
    | Some distance =>
        let max_length := Nat.max (length name1) (length name2) in
        (1 - JsNumber.of_nat distance / JsNumber.of_nat max_length)%float
    | None => PrimFloat.nan
    end.

(** The acceptance threshold of [find_best_match]. *)
Definition threshold : float := 0.6%float.

(** The state of the scan of [find_best_match]: [best_match], [best_score]. *)
Definition best : Type := option jsstring * float.

(** One turn of the loop of [find_best_match]. *)
Definition consider (normalized_target : jsstring) (b : best)
    (source_bone : jsstring) : best :=
  let normalized_source := normalize_bone_name source_bone in
  let score := calculate_similarity normalized_target normalized_source in
  if PrimFloat.ltb (snd b) score && PrimFloat.leb threshold score
  then (Some source_bone, score)
  else b.

Definition find_best_match (target_bone : jsstring) (source_bones : list jsstring)
    : option jsstring :=
  let normalized_target := normalize_bone_name target_bone in
  fst (fold_left (consider normalized_target) source_bones (None, 0%float)).

(** One turn of the loop of [auto_map_bones]. *)
Definition map_target (source_bone_names : list jsstring) (mappings : JsMap.t)
    (target_bone : jsstring) : JsMap.t :=
  match find_best_match target_bone source_bone_names with
  | Some best_match => JsMap.set mappings target_bone best_match
  | None => mappings
  end.

Definition auto_map_bones (source_bone_names target_bone_names : list jsstring)
    : JsMap.t :=
  fold_left (map_target source_bone_names) target_bone_names JsMap.empty.

(** The score the mapper gives a pair of raw names. *)
Definition score (target_bone source_bone : jsstring) : float :=
  calculate_similarity (normalize_bone_name target_bone)
    (normalize_bone_name source_bone).

End BoneAutoMapper.

(* ================================================================= *)
(** ** MixamoMapper *)

Module MixamoMapper.

(** Modelled from the spec: [BoneMetadata] is imported from
    [BoneAutoMapper.ts], which does not declare it; the mapper reads the
    [name] of a bone and nothing else (the spec: a sequence of [{name}]). *)
Record BoneMetadata : Type := { name : jsstring }.

(** The object literal [BONE_MAP], property by property. *)
Definition BONE_MAP : list (jsstring * jsstring) :=
  map (fun kv => (str (fst kv), str (snd kv))) [
    ("pelvis", "mixamorigHips");
    ("spine_01", "mixamorigSpine");
    ("spine_02", "mixamorigSpine1");
    ("spine_03", "mixamorigSpine2");
    ("neck_01", "mixamorigNeck");
    ("head", "mixamorigHead");
    ("head_leaf", "mixamorigHeadTop_End");
    ("clavicle_l", "mixamorigLeftShoulder");
    ("upperarm_l", "mixamorigLeftArm");
    ("lowerarm_l", "mixamorigLeftForeArm");
    ("hand_l", "mixamorigLeftHand");
    ("clavicle_r", "mixamorigRightShoulder");
    ("upperarm_r", "mixamorigRightArm");
    ("lowerarm_r", "mixamorigRightForeArm");
    ("hand_r", "mixamorigRightHand");
    ("thigh_l", "mixamorigLeftUpLeg");
    ("calf_l", "mixamorigLeftLeg");
    ("foot_l", "mixamorigLeftFoot");
    ("ball_l", "mixamorigLeftToeBase");
    ("ball_leaf_l", "mixamorigLeftToe_End");
    ("thigh_r", "mixamorigRightUpLeg");
    ("calf_r", "mixamorigRightLeg");
    ("foot_r", "mixamorigRightFoot");
    ("ball_r", "mixamorigRightToeBase");
    ("ball_leaf_r", "mixamorigRightToe_End");
    ("thumb_01_l", "mixamorigLeftHandThumb1");
    ("thumb_02_l", "mixamorigLeftHandThumb2");
    ("thumb_03_l", "mixamorigLeftHandThumb3");
    ("thumb_04_leaf_l", "mixamorigLeftHandThumb4");
    ("index_01_l", "mixamorigLeftHandIndex1");
    ("index_02_l", "mixamorigLeftHandIndex2");
    ("index_03_l", "mixamorigLeftHandIndex3");
    ("index_04_leaf_l", "mixamorigLeftHandIndex4");
    ("middle_01_l", "mixamorigLeftHandMiddle1");
    ("middle_02_l", "mixamorigLeftHandMiddle2");
    ("middle_03_l", "mixamorigLeftHandMiddle3");
    ("middle_04_leaf_l", "mixamorigLeftHandMiddle4");
    ("ring_01_l", "mixamorigLeftHandRing1");
    ("ring_02_l", "mixamorigLeftHandRing2");
    ("ring_03_l", "mixamorigLeftHandRing3");
    ("ring_04_leaf_l", "mixamorigLeftHandRing4");
    ("pinky_01_l", "mixamorigLeftHandPinky1");
    ("pinky_02_l", "mixamorigLeftHandPinky2");
    ("pinky_03_l", "mixamorigLeftHandPinky3");
    ("pinky_04_leaf_l", "mixamorigLeftHandPinky4");
    ("thumb_01_r", "mixamorigRightHandThumb1");
    ("thumb_02_r", "mixamorigRightHandThumb2");
    ("thumb_03_r", "mixamorigRightHandThumb3");
    ("thumb_04_leaf_r", "mixamorigRightHandThumb4");
    ("index_01_r", "mixamorigRightHandIndex1");
    ("index_02_r", "mixamorigRightHandIndex2");
    ("index_03_r", "mixamorigRightHandIndex3");
    ("index_04_leaf_r", "mixamorigRightHandIndex4");
    ("middle_01_r", "mixamorigRightHandMiddle1");
    ("middle_02_r", "mixamorigRightHandMiddle2");
    ("middle_03_r", "mixamorigRightHandMiddle3");
    ("middle_04_leaf_r", "mixamorigRightHandMiddle4");
    ("ring_01_r", "mixamorigRightHandRing1");
    ("ring_02_r", "mixamorigRightHandRing2");
    ("ring_03_r", "mixamorigRightHandRing3");
    ("ring_04_leaf_r", "mixamorigRightHandRing4");
    ("pinky_01_r", "mixamorigRightHandPinky1");
    ("pinky_02_r", "mixamorigRightHandPinky2");
    ("pinky_03_r", "mixamorigRightHandPinky3");
    ("pinky_04_leaf_r", "mixamorigRightHandPinky4")
  ]%string.

(** [BONE_MAP[key]].  A key the object only inherits from [Object.prototype]
    reads a value that is no string and so equals no bone name; it ends as
    an absent key does, and is [None] here too. *)
Fixpoint lookup (table : list (jsstring * jsstring)) (key : jsstring) : option jsstring :=
  match table with
  | [] => None
  | (k, v) :: rest => if str_eqb k key then Some v else lookup rest key
  end.

(** The signature the recognition looks for. *)
Definition signature : jsstring := str "mixamorig".

Definition is_target_valid_skeleton (bone_names : list jsstring) : bool :=
  existsb (fun n => includes (toLowerCase n) signature) bone_names.

(** One turn of the loop of [map_mixamo_bones]. *)
Definition map_source (target_bones : list BoneMetadata) (mappings : JsMap.t)
    (source_bone : BoneMetadata) : JsMap.t :=
  match lookup BONE_MAP (name source_bone) with
  | Some expected_mixamo_name =>
      match find (fun tb => str_eqb (name tb) expected_mixamo_name) target_bones with
      | Some target_bone => JsMap.set mappings (name target_bone) (name source_bone)
      | None => mappings
      end
  | None => mappings
  end.

(** [map_mixamo_bones]; the closing [console.log] changes no value. *)
Definition map_mixamo_bones (source_bones target_bones : list BoneMetadata) : JsMap.t :=
  fold_left (map_source target_bones) source_bones JsMap.empty.

End MixamoMapper.

(* ================================================================= *)
(** ** RetargetUtils *)

Module RetargetUtils.

(** [create_track_name]: the template literal [`${bone_name}.${property}`]. *)
Definition create_track_name (bone_name property : jsstring) : jsstring :=
  bone_name ++ str "." ++ property.

End RetargetUtils.

(* ================================================================= *)
(** ** The reference notions of the specification *)

Import BoneAutoMapper MixamoMapper.

Module Reference.

(** One single-character edit: an insertion, a deletion or a substitution
    at any place of the string. *)
Inductive edit : jsstring -> jsstring -> Prop :=
| insertion : forall p c q, edit (p ++ q) (p ++ c :: q)
| deletion : forall p c q, edit (p ++ c :: q) (p ++ q)
| substitution : forall p c d q, c <> d -> edit (p ++ c :: q) (p ++ d :: q).

(** [edits n s t]: [n] edits in a row turn [s] into [t]. *)
Inductive edits : nat -> jsstring -> jsstring -> Prop :=
| edits_none : forall s, edits 0 s s
| edits_more : forall n s t u, edits n s t -> edit t u -> edits (S n) s u.

(** [d] is the least number of edits that turn [s] into [t]. *)
Definition is_edit_distance (s t : jsstring) (d : nat) : Prop :=
  edits d s t /\ forall n, edits n s t -> d <= n.

(** The cost of putting [b] where [a] is. *)
Definition cost (a b : ascii) : nat := if Ascii.eqb a b then 0 else 1.

(** The recurrence of the specification, read from the heads of the lists. *)
Fixpoint lev (x : jsstring) : jsstring -> nat :=
  match x with
  | [] => fun y => length y
  | a :: x' =>
      fix lev_row (y : jsstring) : nat :=
        match y with
        | [] => S (length x')
        | b :: y' =>
            BoneAutoMapper.min3 (lev x' y + 1) (lev_row y' + 1)
              (lev x' y' + cost a b)
        end
  end.

(** The cell [(i, j)] of the table of the specification: the distance
    between the first [i] code units of [s] and the first [j] of [t]. *)
Definition cell (s t : jsstring) (i j : nat) : nat :=
  lev (rev (firstn i s)) (rev (firstn j t)).

(** [n] contains [sig] case-insensitively: some substring of [n] equals
    [sig] once both are lowercased. *)
Definition contains_ignoring_case (n sig : jsstring) : Prop :=
  exists pre w post, n = pre ++ w ++ post /\ toLowerCase w = toLowerCase sig.

End Reference.

(* ================================================================= *)
(** ** Invariants and predicates used by the proofs *)

Module Invariants.

Import Reference.

(** The rows [0..length str1] of the matrix exist and its cells in [K] hold
    the entries of the table of the specification. *)
Definition filled (str1 str2 : jsstring) (K : nat -> nat -> Prop)
    (m : JsArray.matrix) : Prop :=
  (forall i, i <= length str1 -> exists r, m i = Some r)
  /\ forall i j, K i j -> JsArray.get m i j = Some (cell str1 str2 i j).

(** The cells known before row [i] is filled, and while it is filled up to
    column [j]. *)
Definition rows_before (len1 len2 i : nat) : nat -> nat -> Prop :=
  fun i' j' => i' <= len1 /\ j' <= len2 /\ (j' = 0 \/ i' < i).

Definition row_upto (len1 len2 i j : nat) : nat -> nat -> Prop :=
  fun i' j' => i' <= len1 /\ j' <= len2 /\ (j' = 0 \/ i' < i \/ (i' = i /\ j' < j)).

(** [/\bw\b/] matches somewhere in [s] ([prev] as in [matches_word]). *)
Fixpoint has_word (w : jsstring) (prev : bool) (s : jsstring) : bool :=
  match s with
  | [] => false
  | c :: s' => matches_word w prev s || has_word w (is_word_char c) s'
  end.

(** A string the first two steps of the normalizer leave alone: lowercase
    and free of separators. *)
Definition settled_char (c : ascii) : bool :=
  Ascii.eqb (lower_char c) c && negb (is_separator c).

(** What the scan of [find_best_match] knows about its best candidate. *)
Definition accepted (source_bone_names : list jsstring)
    (normalized_target : jsstring) (b : best) : Prop :=
  forall s, fst b = Some s ->
    In s source_bone_names
    /\ PrimFloat.leb threshold
         (calculate_similarity normalized_target (normalize_bone_name s)) = true.

(** Distinct values: decided by running over the list. *)
Fixpoint distinct (l : list jsstring) : bool :=
  match l with
  | [] => true
  | x :: l' => negb (existsb (str_eqb x) l') && distinct l'
  end.

(** The sign and the kind of a rounded positive quantity. *)
Definition positive_result (x : spec_float) : Prop :=
  match x with
  | S754_finite s _ _ => s = false
  | S754_infinity s => s = false
  | _ => False
  end.

(** A literal made of word characters, as "left" and "right" are. *)
Definition plain_word (w : jsstring) : Prop :=
  w <> [] /\ forallb is_word_char w = true.

(** Every code unit is lowercase and no separator. *)
Definition settled (s : jsstring) : Prop := forallb settled_char s = true.

End Invariants.

Import Reference Invariants.

(* ================================================================= *)
(** ** The order of binary64 numbers, read on integer keys *)

Module FloatOrder.

Local Open Scope Z_scope.

(** A key of a number that is not NaN: its class (-2 for -Infinity, -1 for
    a negative number, 0 for both zeros, 1 for a positive number, 2 for
    +Infinity), then exponent and mantissa, negated on the negative side.
    [SFcompare] orders two numbers as it orders their keys, class first. *)
Definition fkey (x : spec_float) : option (Z * Z * Z) :=
  match x with
  | S754_nan => None
  | S754_zero _ => Some (0, 0, 0)
  | S754_infinity false => Some (2, 0, 0)
  | S754_infinity true => Some (-2, 0, 0)
  | S754_finite false m e => Some (1, e, Z.pos m)
  | S754_finite true m e => Some (-1, - e, - Z.pos m)
  end.

Definition key_lt (a b : Z * Z * Z) : Prop :=
  let '(c1, e1, m1) := a in
  let '(c2, e2, m2) := b in
  c1 < c2 \/ (c1 = c2 /\ (e1 < e2 \/ (e1 = e2 /\ m1 < m2))).

Definition key_le (a b : Z * Z * Z) : Prop :=
  let '(c1, e1, m1) := a in
  let '(c2, e2, m2) := b in
  c1 < c2 \/ (c1 = c2 /\ (e1 < e2 \/ (e1 = e2 /\ m1 <= m2))).

Definition key (x : float) : option (Z * Z * Z) := fkey (Prim2SF x).

(** [x < y] and [x <= y] on numbers: both are numbers and the keys agree. *)
Definition flt (x y : float) : Prop :=
  match key x, key y with
  | Some a, Some b => key_lt a b
  | _, _ => False
  end.

Definition fle (x y : float) : Prop :=
  match key x, key y with
  | Some a, Some b => key_le a b
  | _, _ => False
  end.

(** A number with the sign [s]: a zero, a finite number or an infinity, not
    NaN. *)
Definition signed (s : bool) (x : spec_float) : Prop :=
  match x with
  | S754_zero s' | S754_infinity s' | S754_finite s' _ _ => s' = s
  | S754_nan => False
  end.

(** A number that is not NaN. *)
Definition is_number (x : spec_float) : Prop := x <> S754_nan.

(** A finite number that is zero or positive. *)
Definition finite_nonneg (x : spec_float) : Prop :=
  match x with
  | S754_zero false | S754_finite false _ _ => True
  | _ => False
  end.

(** [x] is a number at most, or at least, the number of key [k]. *)
Definition at_most (x : spec_float) (k : Z * Z * Z) : Prop :=
  match fkey x with
  | Some a => key_le a k
  | None => False
  end.

Definition at_least (x : spec_float) (k : Z * Z * Z) : Prop :=
  match fkey x with
  | Some a => key_le k a
  | None => False
  end.

End FloatOrder.

(* ================================================================= *)
(** ** Strings: equality, prefixes, substrings *)

Section StringFacts.

Lemma str_eqb_refl (a : jsstring) : str_eqb a a = true.
Proof.
  induction a as [|x a IH]; simpl; [reflexivity|].
  now rewrite Ascii.eqb_refl, IH.
Qed.

Lemma str_eqb_eq (a b : jsstring) : str_eqb a b = true <-> a = b.
Proof.
  split; [|intros ->; apply str_eqb_refl].
  revert b; induction a as [|x a IH]; intros [|y b]; simpl; try easy.
  rewrite andb_true_iff, Ascii.eqb_eq. intros [-> H]. now rewrite (IH b H).
Qed.

Lemma starts_with_iff (p s : jsstring) :
  starts_with p s = true <-> exists t, s = p ++ t.
Proof.
  revert s; induction p as [|x p IH]; intros s; simpl.
  - split; [intros _; now exists s | reflexivity].
  - destruct s as [|y s].
    + split; [discriminate | intros [t H]; discriminate].
    + rewrite andb_true_iff, Ascii.eqb_eq, IH. split.
      * intros [-> [t ->]]. now exists t.
      * intros [t H]. injection H as -> ->. split; [reflexivity | now exists t].
Qed.

Lemma includes_iff (s sub : jsstring) :
  includes s sub = true <-> exists pre post, s = pre ++ sub ++ post.
Proof.
  induction s as [|c s IH].
  - simpl. rewrite orb_false_r, starts_with_iff. split.
    + intros [t H]. now exists [], t.
    + intros [pre [post H]]. destruct pre; [now exists post|discriminate].
  - cbn [includes]. rewrite orb_true_iff, starts_with_iff, IH. split.
    + intros [[t H] | [pre [post H]]].
      * now exists [], t.
      * exists (c :: pre), post. now rewrite H.
    + intros [[|x pre] [post H]].
      * left. now exists post.
      * right. injection H as _ H. now exists pre, post.
Qed.

Lemma toLowerCase_app (a b : jsstring) :
  toLowerCase (a ++ b) = toLowerCase a ++ toLowerCase b.
Proof. apply map_app. Qed.

End StringFacts.

(* ================================================================= *)
(** ** The recognition predicate of the direct mapper *)

Section Recognition.

Lemma includes_lowercase_iff (n : jsstring) :
  includes (toLowerCase n) signature = true <-> contains_ignoring_case n signature.
Proof.
  rewrite includes_iff. unfold contains_ignoring_case. split.
  - intros [a [b H]]. unfold toLowerCase in H.
    apply map_eq_app in H as [pre [rest [-> [Hpre Hrest]]]].
    apply map_eq_app in Hrest as [w [post [-> [Hw Hpost]]]].
    exists pre, w, post. split; [reflexivity|]. exact Hw.
  - intros [pre [w [post [-> Hw]]]].
    exists (toLowerCase pre), (toLowerCase post).
    rewrite !toLowerCase_app, Hw. reflexivity.
Qed.

(** C7. [is_target_valid_skeleton] answers [true] exactly when some name of
    the collection contains the signature "mixamorig" case-insensitively; it
    accepts ["mixamorigHips"; "mixamorigSpine"] and rejects ["Hips"; "Spine"]. *)
Theorem is_target_valid_skeleton_iff :
  (forall bone_names,
      is_target_valid_skeleton bone_names = true <->
      exists n, In n bone_names /\ contains_ignoring_case n (str "mixamorig"))
  /\ is_target_valid_skeleton [str "mixamorigHips"; str "mixamorigSpine"] = true
  /\ is_target_valid_skeleton [str "Hips"; str "Spine"] = false.
Proof.
  split; [|split; reflexivity].
  intros bone_names. unfold is_target_valid_skeleton.
  rewrite existsb_exists. split.
  - intros [n [Hin H]]. exists n. split; [exact Hin|].
    now apply includes_lowercase_iff.
  - intros [n [Hin H]]. exists n. split; [exact Hin|].
    now apply includes_lowercase_iff.
Qed.

End Recognition.

(* ================================================================= *)
(** ** The prefix alternation of the normalizer *)

Section PrefixStrip.

Lemma starts_with_ci_app (p q s : jsstring) :
  starts_with_ci (p ++ q) s = true -> starts_with_ci p s = true.
Proof.
  revert s; induction p as [|x p IH]; intros s; simpl; [reflexivity|].
  destruct s as [|y s]; [discriminate|].
  rewrite !andb_true_iff. intros [Hc H]. split; [exact Hc | now apply IH].
Qed.

Lemma replace_separators_app (a b : jsstring) :
  replace_separators (a ++ b) = replace_separators a ++ replace_separators b.
Proof. apply map_app. Qed.

(** The second alternative is the first one followed by an underscore, so
    the scan of the alternatives never gets to it. *)
Lemma second_alternative_shadowed (s : jsstring) :
  matched_alternative rig_prefixes s <> Some (str "mixamorig_").
Proof.
  unfold matched_alternative, rig_prefixes. cbn [map find].
  destruct (starts_with_ci (str "mixamorig") s) eqn:H1; [discriminate|].
  destruct (starts_with_ci (str "mixamorig_") s) eqn:H2.
  - change (str "mixamorig_") with (str "mixamorig" ++ str "_") in H2.
    apply starts_with_ci_app in H2. congruence.
  - repeat match goal with
           | |- context [if ?b then _ else _] => destruct b; [discriminate|]
           end.
    discriminate.
Qed.

(** C10. When the lowercased name begins with "mixamorig_", the alternative
    that matches is "mixamorig": the strip removes these nine code units and
    the underscore stays.  The alternative "mixamorig_" matches for no
    input, and [normalize_bone_name "mixamorig_Hips"] is "_hips". *)
Theorem mixamorig_underscore_stays (x rest : jsstring)
    (H : toLowerCase x = str "mixamorig_" ++ rest) :
  matched_alternative rig_prefixes (replace_separators (toLowerCase x))
    = Some (str "mixamorig")
  /\ strip_rig_prefix (replace_separators (toLowerCase x))
    = underscore :: replace_separators rest
  /\ (forall s, matched_alternative rig_prefixes s <> Some (str "mixamorig_"))
  /\ normalize_bone_name (str "mixamorig_Hips") = str "_hips".
Proof.
  rewrite H, replace_separators_app.
  repeat split.
  - intros s. apply second_alternative_shadowed.
Qed.

Lemma mixamorig_underscore_stays_witness :
  toLowerCase (str "mixamorig_Hips") = str "mixamorig_" ++ str "hips"
  /\ strip_rig_prefix (replace_separators (toLowerCase (str "mixamorig_Hips")))
     = underscore :: replace_separators (str "hips").
Proof.
  split; [reflexivity|].
  apply (mixamorig_underscore_stays (str "mixamorig_Hips") (str "hips")).
  reflexivity.
Defined.

(** C5, as the specification words it: on "mixamorigLeftArm" the strip of
    the rig prefix would change nothing.  It does change the string. *)
Lemma rig_prefix_kept_counterexample :
  strip_rig_prefix (replace_separators (toLowerCase (str "mixamorigLeftArm")))
  <> replace_separators (toLowerCase (str "mixamorigLeftArm")).
Proof. vm_compute. discriminate. Qed.

(** C5, amended. [normalize_bone_name "mixamorigLeftArm"] is "leftarm": the
    steps run in the order of the source, the alternation matches the
    lowercased "mixamorig" and the strip removes it; "left" is followed by
    "a", hence is no whole word, and stays as it is. *)
Theorem normalize_mixamorigLeftArm :
  let x := str "mixamorigLeftArm" in
  normalize_bone_name x = str "leftarm"
  /\ toLowerCase x = str "mixamorigleftarm"
  /\ replace_separators (toLowerCase x) = str "mixamorigleftarm"
  /\ matched_alternative rig_prefixes (str "mixamorigleftarm") = Some (str "mixamorig")
  /\ strip_rig_prefix (str "mixamorigleftarm") = str "leftarm"
  /\ has_word (str "left") false (str "leftarm") = false
  /\ shorten_sides (str "leftarm") = str "leftarm"
  /\ expand_sides (str "leftarm") = str "leftarm".
Proof. cbv zeta. repeat split. Qed.

End PrefixStrip.

(* ================================================================= *)
(** ** Maps *)

Section MapFacts.

Lemma get_set (m : JsMap.t) (k v a : jsstring) :
  JsMap.get (JsMap.set m k v) a = if str_eqb k a then Some v else JsMap.get m a.
Proof.
  induction m as [|[k' v'] m IH]; simpl.
  - reflexivity.
  - destruct (str_eqb k' k) eqn:E; simpl.
    + apply str_eqb_eq in E. subst k'. now destruct (str_eqb k a).
    + destruct (str_eqb k' a) eqn:E'; [|exact IH].
      apply str_eqb_eq in E'. subst a.
      destruct (str_eqb k k') eqn:E''; [|reflexivity].
      apply str_eqb_eq in E''. subst k'. now rewrite str_eqb_refl in E.
Qed.

Lemma in_set (m : JsMap.t) (k v a b : jsstring) :
  In (a, b) (JsMap.set m k v) -> (a = k /\ b = v) \/ In (a, b) m.
Proof.
  induction m as [|[k' v'] m IH]; simpl.
  - intros [H|[]]. injection H as <- <-. now left.
  - destruct (str_eqb k' k) eqn:E; simpl.
    + apply str_eqb_eq in E. subst k'.
      intros [H|H]; [injection H as <- <-; now left | now right; right].
    + intros [H|H]; [now right; left|].
      destruct (IH H) as [H'|H']; [now left | now right; right].
Qed.

Lemma get_in (m : JsMap.t) (k v : jsstring) :
  JsMap.get m k = Some v -> In (k, v) m.
Proof.
  induction m as [|[k' v'] m IH]; simpl; [discriminate|].
  destruct (str_eqb k' k) eqn:E.
  - apply str_eqb_eq in E. subst k'. intros [= ->]. now left.
  - intros H. right. now apply IH.
Qed.

(** An invariant of the turns of a loop holds when the loop ends. *)
Lemma fold_left_invariant {A S : Type} (P : S -> Prop) (f : S -> A -> S)
    (l : list A) (s : S) :
  P s -> (forall st x, In x l -> P st -> P (f st x)) -> P (fold_left f l s).
Proof.
  revert s; induction l as [|x l IH]; intros s Hs Hf; simpl; [exact Hs|].
  apply IH; [apply Hf; [now left | exact Hs] | intros st y Hy; apply Hf; now right].
Qed.

End MapFacts.

(* ================================================================= *)
(** ** The generic mapper: threshold and soundness *)

Section GenericMapper.

Variable source_bone_names : list jsstring.

Lemma consider_changes (normalized_target : jsstring) (b : best) (src : jsstring) :
  consider normalized_target b src <> b ->
  let score := calculate_similarity normalized_target (normalize_bone_name src) in
  PrimFloat.ltb (snd b) score = true
  /\ PrimFloat.leb threshold score = true
  /\ consider normalized_target b src = (Some src, score).
Proof.
  unfold consider. cbv zeta.
  destruct (PrimFloat.ltb _ _) eqn:E1; destruct (PrimFloat.leb _ _) eqn:E2;
    simpl; intros H; try congruence.
  now repeat split.
Qed.

Lemma consider_accepted (normalized_target : jsstring) (b : best) (src : jsstring) :
  In src source_bone_names ->
  accepted source_bone_names normalized_target b ->
  accepted source_bone_names normalized_target (consider normalized_target b src).
Proof.
  intros Hin Hb. unfold consider. cbv zeta.
  destruct (PrimFloat.ltb _ _); simpl; [|exact Hb].
  destruct (PrimFloat.leb _ _) eqn:E; simpl; [|exact Hb].
  intros s [= <-]. split; assumption.
Qed.

Lemma find_best_match_some (t s : jsstring) :
  find_best_match t source_bone_names = Some s ->
  In s source_bone_names /\ PrimFloat.leb threshold (score t s) = true.
Proof.
  unfold find_best_match, score. cbv zeta. intros H.
  refine (fold_left_invariant (accepted source_bone_names (normalize_bone_name t)) _ _ _ _ _ s H).
  - intros s' [=].
  - intros st x Hx Hst. now apply consider_accepted.
Qed.

Lemma find_best_match_none (t : jsstring) :
  (forall src, In src source_bone_names ->
               PrimFloat.leb threshold (score t src) = false) ->
  find_best_match t source_bone_names = None.
Proof.
  intros Hlow. unfold find_best_match. cbv zeta.
  apply (fold_left_invariant (fun b : best => fst b = None)); [reflexivity|].
  intros st x Hx Hst. unfold consider. cbv zeta.
  specialize (Hlow x Hx). unfold score in Hlow. rewrite Hlow, andb_false_r.
  exact Hst.
Qed.

(** Every entry of the result was put there for one of the targets, with
    the answer of [find_best_match] for it. *)
Lemma auto_map_entry (target_bone_names : list jsstring) (t s : jsstring) :
  In (t, s) (auto_map_bones source_bone_names target_bone_names) ->
  In t target_bone_names /\ find_best_match t source_bone_names = Some s.
Proof.
  unfold auto_map_bones.
  apply (fold_left_invariant
           (fun m : JsMap.t => In (t, s) m ->
              In t target_bone_names /\ find_best_match t source_bone_names = Some s)).
  - intros [].
  - intros m x Hx Hm. unfold map_target.
    destruct (find_best_match x source_bone_names) as [bm|] eqn:E; [|exact Hm].
    intros Hin. apply in_set in Hin as [[-> ->]|Hin]; [now split | now apply Hm].
Qed.

End GenericMapper.

(** C1. Every entry [(t, s)] of the mapping of [auto_map_bones] has a score
    of at least 0.6.  A turn of the scan replaces the best candidate only
    when the score is strictly above the best score so far and at least 0.6,
    and a target none of whose sources reaches 0.6 has no entry. *)
Theorem auto_map_threshold (source_names target_names : list jsstring)
    (t s : jsstring)
    (H : In (t, s) (auto_map_bones source_names target_names)) :
  PrimFloat.leb 0.6 (score t s) = true
  /\ (forall (b : best) (src : jsstring),
         consider (normalize_bone_name t) b src <> b ->
         PrimFloat.ltb (snd b) (score t src) = true
         /\ PrimFloat.leb 0.6 (score t src) = true
         /\ consider (normalize_bone_name t) b src = (Some src, score t src))
  /\ (forall t',
         (forall src, In src source_names ->
                      PrimFloat.leb 0.6 (score t' src) = false) ->
         JsMap.get (auto_map_bones source_names target_names) t' = None
         /\ forall s', ~ In (t', s') (auto_map_bones source_names target_names)).
Proof.
  split; [|split].
  - apply auto_map_entry in H as [_ H].
    now apply find_best_match_some in H as [_ H].
  - intros b src Hb. now apply consider_changes.
  - intros t' Hlow.
    assert (Hnone : forall s', ~ In (t', s') (auto_map_bones source_names target_names)).
    { intros s' Hin. apply auto_map_entry in Hin as [_ Hin].
      rewrite (find_best_match_none source_names t' Hlow) in Hin. discriminate. }
    split; [|exact Hnone].
    destruct (JsMap.get _ t') as [s'|] eqn:E; [|reflexivity].
    apply get_in in E. now apply Hnone in E.
Qed.

Lemma auto_map_threshold_witness :
  In (str "hand_left", str "Hand_L") (auto_map_bones [str "Hand_L"] [str "hand_left"])
  /\ PrimFloat.leb 0.6 (score (str "hand_left") (str "Hand_L")) = true.
Proof.
  assert (H : In (str "hand_left", str "Hand_L")
                (auto_map_bones [str "Hand_L"] [str "hand_left"])).
  { vm_compute. left. reflexivity. }
  split; [exact H|].
  exact (proj1 (auto_map_threshold [str "Hand_L"] [str "hand_left"]
                  (str "hand_left") (str "Hand_L") H)).
Defined.

(* ================================================================= *)
(** ** The direct mapper *)

Section DirectMapper.

Lemma lookup_in (table : list (jsstring * jsstring)) (k v : jsstring) :
  lookup table k = Some v -> In (k, v) table.
Proof.
  induction table as [|[k' v'] table IH]; simpl; [discriminate|].
  destruct (str_eqb k' k) eqn:E.
  - apply str_eqb_eq in E. subst k'. intros [= ->]. now left.
  - intros H. right. now apply IH.
Qed.

Lemma distinct_nodup (l : list jsstring) : distinct l = true -> NoDup l.
Proof.
  induction l as [|x l IH]; simpl; [constructor|].
  rewrite andb_true_iff, negb_true_iff. intros [Hx Hl].
  constructor; [|now apply IH].
  intros Hin. rewrite <- not_true_iff_false, existsb_exists in Hx.
  apply Hx. exists x. split; [exact Hin | apply str_eqb_refl].
Qed.

Lemma in_same_value (table : list (jsstring * jsstring)) (a b v : jsstring) :
  NoDup (map snd table) -> In (a, v) table -> In (b, v) table -> a = b.
Proof.
  induction table as [|[k w] table IH]; simpl; [easy|].
  intros Hnd Ha Hb. inversion Hnd as [|? ? Hn Hrest]; subst.
  destruct Ha as [Ha|Ha], Hb as [Hb|Hb].
  - congruence.
  - injection Ha as -> ->. exfalso. apply Hn.
    change v with (snd (b, v)). now apply in_map.
  - injection Hb as -> ->. exfalso. apply Hn.
    change v with (snd (a, v)). now apply in_map.
  - now apply IH.
Qed.

(** No two keys of [BONE_MAP] expect the same target name. *)
Lemma BONE_MAP_injective (a b v : jsstring) :
  lookup BONE_MAP a = Some v -> lookup BONE_MAP b = Some v -> a = b.
Proof.
  intros Ha Hb. apply (in_same_value BONE_MAP a b v).
  - apply distinct_nodup. vm_compute. reflexivity.
  - now apply lookup_in.
  - now apply lookup_in.
Qed.

Variable target_bones : list BoneMetadata.

Lemma find_target_some (expected : jsstring) (tb : BoneMetadata) :
  find (fun tb => str_eqb (name tb) expected) target_bones = Some tb ->
  name tb = expected /\ In expected (map name target_bones).
Proof.
  intros H. apply find_some in H as [Hin Heq]. apply str_eqb_eq in Heq.
  split; [exact Heq|]. rewrite <- Heq. now apply in_map.
Qed.

Lemma find_target_none (expected : jsstring) :
  find (fun tb => str_eqb (name tb) expected) target_bones = None ->
  ~ In expected (map name target_bones).
Proof.
  intros H Hin. apply in_map_iff in Hin as [tb [Hn Hin]].
  apply (find_none _ _ H) in Hin. simpl in Hin.
  rewrite Hn, str_eqb_refl in Hin. discriminate.
Qed.

(** The map after one more source bone. *)
Lemma get_map_source (m : JsMap.t) (sb : BoneMetadata) (t : jsstring) :
  JsMap.get (map_source target_bones m sb) t =
  match lookup BONE_MAP (name sb) with
  | Some expected =>
      if str_eqb expected t && existsb (str_eqb expected) (map name target_bones)
      then Some (name sb) else JsMap.get m t
  | None => JsMap.get m t
  end.
Proof.
  unfold map_source. destruct (lookup BONE_MAP (name sb)) as [e|]; [|reflexivity].
  destruct (find _ target_bones) as [tb|] eqn:F.
  - apply find_target_some in F as [Hn Hin]. rewrite get_set, Hn.
    destruct (str_eqb e t); [|reflexivity]. cbn [andb].
    replace (existsb _ _) with true; [reflexivity|].
    symmetry. apply existsb_exists. exists e.
    split; [exact Hin | apply str_eqb_refl].
  - apply find_target_none in F.
    replace (existsb _ _) with false; [now rewrite andb_false_r|].
    symmetry. apply not_true_iff_false. rewrite existsb_exists.
    intros [x [Hx Hex]]. apply str_eqb_eq in Hex. subst x. now apply F.
Qed.

(** The entries of a map grown by the loop of [map_mixamo_bones] from a map
    whose entries all agree with the table. *)
Lemma get_fold_map_source (source_bones : list BoneMetadata) (t s : jsstring) :
  forall m : JsMap.t,
  (forall s', JsMap.get m t = Some s' -> lookup BONE_MAP s' = Some t) ->
  (JsMap.get (fold_left (map_source target_bones) source_bones m) t = Some s <->
   JsMap.get m t = Some s \/
   (In s (map name source_bones) /\ lookup BONE_MAP s = Some t
    /\ In t (map name target_bones))).
Proof.
  induction source_bones as [|sb rest IH]; intros m Hm; cbn [fold_left map In].
  - intuition.
  - assert (Hstep := get_map_source m sb t).
    rewrite IH.
    + rewrite Hstep. clear IH Hstep.
      destruct (lookup BONE_MAP (name sb)) as [e|] eqn:L.
      * destruct (str_eqb e t) eqn:E; cbn [andb].
        -- apply str_eqb_eq in E. subst e.
           destruct (existsb _ _) eqn:X.
           ++ assert (Ht : In t (map name target_bones)).
              { apply existsb_exists in X as [x [Hx Hex]].
                apply str_eqb_eq in Hex. now subst x. }
              split.
              ** intros [[= <-]|[Hin H]]; right; intuition.
              ** intros [H|[[<-|Hin] [Hl Ht']]].
                 --- left. f_equal. apply (BONE_MAP_injective _ _ t L). now apply Hm.
                 --- now left.
                 --- right. intuition.
           ++ split; [intuition|].
              intros [H|[[<-|Hin] [Hl Ht']]]; [now left | | right; intuition].
              exfalso. apply not_true_iff_false in X. apply X.
              apply existsb_exists. exists t. split; [exact Ht' | apply str_eqb_refl].
        -- split; [intuition|].
           intros [H|[[<-|Hin] [Hl Ht']]]; [now left | | right; intuition].
           rewrite L in Hl. injection Hl as ->. now rewrite str_eqb_refl in E.
      * split; [intuition|].
        intros [H|[[<-|Hin] [Hl Ht']]]; [now left | congruence | right; intuition].
    + intros s'. rewrite Hstep.
      destruct (lookup BONE_MAP (name sb)) as [e|] eqn:L; [|apply Hm].
      destruct (str_eqb e t) eqn:E; cbn [andb]; [|apply Hm].
      apply str_eqb_eq in E. subst e.
      destruct (existsb _ _); [|apply Hm]. now intros [= <-].
Qed.

End DirectMapper.

(** C8. [map_mixamo_bones] maps a target name [t] to a source name [s]
    exactly when [s] names a source bone, is a key of [BONE_MAP] with [t] as
    its expected name, and [t] names one of the target bones; every other
    source bone adds nothing, and the function is total.  With "pelvis" among
    the sources: "mixamorigHips" is mapped to it when that name is among the
    targets, and nothing is mapped to "pelvis" when it is not. *)
Theorem map_mixamo_bones_exact (source_bones target_bones : list BoneMetadata) :
  (forall t s,
      JsMap.get (map_mixamo_bones source_bones target_bones) t = Some s <->
      In s (map name source_bones)
      /\ lookup BONE_MAP s = Some t
      /\ In t (map name target_bones))
  /\ (In (str "pelvis") (map name source_bones) ->
      In (str "mixamorigHips") (map name target_bones) ->
      JsMap.get (map_mixamo_bones source_bones target_bones) (str "mixamorigHips")
      = Some (str "pelvis"))
  /\ (~ In (str "mixamorigHips") (map name target_bones) ->
      forall t, JsMap.get (map_mixamo_bones source_bones target_bones) t
                <> Some (str "pelvis")).
Proof.
  assert (Hiff : forall t s,
      JsMap.get (map_mixamo_bones source_bones target_bones) t = Some s <->
      In s (map name source_bones)
      /\ lookup BONE_MAP s = Some t
      /\ In t (map name target_bones)).
  { intros t s. unfold map_mixamo_bones.
    rewrite (get_fold_map_source target_bones source_bones t s JsMap.empty).
    - simpl. intuition discriminate.
    - intros s' [=]. }
  split; [exact Hiff|split].
  - intros Hs Ht. apply Hiff. now repeat split.
  - intros Hno t Hget. apply Hiff in Hget as [_ [Hl Ht]].
    vm_compute in Hl. injection Hl as <-. now apply Hno.
Qed.

(** C2. Every key of the mapping of either mapper is one of the supplied
    target names and every value is one of the supplied source names. *)
Theorem mappings_sound (t s : jsstring) :
  (forall source_names target_names : list jsstring,
      In (t, s) (auto_map_bones source_names target_names) ->
      In t target_names /\ In s source_names)
  /\ (forall source_bones target_bones : list BoneMetadata,
      In (t, s) (map_mixamo_bones source_bones target_bones) ->
      In t (map name target_bones) /\ In s (map name source_bones)).
Proof.
  split.
  - intros source_names target_names H.
    apply auto_map_entry in H as [Ht H]. split; [exact Ht|].
    now apply find_best_match_some in H as [H _].
  - intros source_bones target_bones. unfold map_mixamo_bones.
    apply (fold_left_invariant
             (fun m : JsMap.t => In (t, s) m ->
                In t (map name target_bones) /\ In s (map name source_bones))).
    + intros [].
    + intros m sb Hsb Hm. unfold map_source.
      destruct (lookup BONE_MAP (name sb)) as [e|]; [|exact Hm].
      destruct (find _ target_bones) as [tb|] eqn:F; [|exact Hm].
      apply find_target_some in F as [Hn Hin]. intros H.
      apply in_set in H as [[-> ->]|H]; [|now apply Hm].
      split; [now rewrite Hn | now apply in_map].
Qed.

(** C6. From the sources ["Hand_L"; "Hand_R"] and the targets
    ["hand_left"; "hand_right"], [auto_map_bones] returns the two entries
    "hand_left" -> "Hand_L" and "hand_right" -> "Hand_R" and no other: each
    matching pair normalizes to the same string and scores 1.0, and the
    crossed pairs score below that. *)
Theorem auto_map_hands :
  auto_map_bones [str "Hand_L"; str "Hand_R"] [str "hand_left"; str "hand_right"]
  = [(str "hand_left", str "Hand_L"); (str "hand_right", str "Hand_R")]
  /\ normalize_bone_name (str "Hand_L") = normalize_bone_name (str "hand_left")
  /\ normalize_bone_name (str "Hand_R") = normalize_bone_name (str "hand_right")
  /\ score (str "hand_left") (str "Hand_L") = 1.0%float
  /\ score (str "hand_right") (str "Hand_R") = 1.0%float
  /\ PrimFloat.ltb (score (str "hand_left") (str "Hand_R")) 1.0 = true
  /\ PrimFloat.ltb (score (str "hand_right") (str "Hand_L")) 1.0 = true.
Proof. repeat split; vm_compute; reflexivity. Qed.

(* ================================================================= *)
(** ** Numbers: zero divided by a length *)

Section FloatFacts.

Local Open Scope Z_scope.

Lemma Zdigits2_positive (m : Z) : 0 < m -> 0 < Zdigits2 m.
Proof. destruct m; simpl; lia. Qed.

Lemma Zdigits2_zero (m : Z) : 0 <= m -> 0 < Zdigits2 m -> 0 < m.
Proof. destruct m; simpl; lia. Qed.

Lemma shr_1_digits (r : shr_record) :
  0 <= shr_m r ->
  0 <= shr_m (shr_1 r)
  /\ Zdigits2 (shr_m (shr_1 r)) = Z.max 0 (Zdigits2 (shr_m r) - 1).
Proof.
  destruct r as [m rb sb]. cbn [shr_m].
  destruct m as [|[p|p|]|p]; cbn [shr_1 shr_m Zdigits2 digits2_pos];
    rewrite ?Pos2Z.inj_succ; lia.
Qed.

Lemma iter_shr_1_digits (n : positive) :
  forall r, 0 <= shr_m r ->
  0 <= shr_m (iter_pos shr_1 n r)
  /\ Zdigits2 (shr_m (iter_pos shr_1 n r)) = Z.max 0 (Zdigits2 (shr_m r) - Z.pos n).
Proof.
  induction n as [n IH|n IH|]; intros r Hr; simpl.
  - destruct (shr_1_digits r Hr) as [H1 D1].
    destruct (IH _ H1) as [H2 D2]. destruct (IH _ H2) as [H3 D3].
    split; [exact H3|]. rewrite D3, D2, D1. lia.
  - destruct (IH _ Hr) as [H2 D2]. destruct (IH _ H2) as [H3 D3].
    split; [exact H3|]. rewrite D3, D2. lia.
  - apply shr_1_digits, Hr.
Qed.

Lemma shr_record_of_loc_m (m : Z) (l : location) : shr_m (shr_record_of_loc m l) = m.
Proof. destruct l as [|[]]; reflexivity. Qed.

Lemma shr_fexp_positive (m e : Z) (l : location) :
  0 < m -> emin <= e ->
  0 < shr_m (fst (shr_fexp prec emax m e l))
  /\ emin <= snd (shr_fexp prec emax m e l).
Proof.
  intros Hm He. unfold shr_fexp, shr.
  assert (Hd := Zdigits2_positive m Hm).
  destruct (fexp prec emax (Zdigits2 m + e) - e) as [|n|n] eqn:N; simpl;
    rewrite ?shr_record_of_loc_m; try (split; lia).
  destruct (iter_shr_1_digits n (shr_record_of_loc m l)) as [H D].
  { rewrite shr_record_of_loc_m. lia. }
  rewrite shr_record_of_loc_m in D.
  split; [|lia].
  apply Zdigits2_zero; [exact H|]. rewrite D.
  unfold fexp, SpecFloat.emin, prec, emax in *. lia.
Qed.

Lemma round_nearest_even_positive (m : Z) (l : location) :
  0 < m -> 0 < round_nearest_even m l.
Proof.
  intros Hm. destruct l as [|[]]; simpl; try lia.
  destruct (Z.even m); lia.
Qed.

Lemma binary_round_aux_positive (m e : Z) (l : location) :
  0 < m -> emin <= e ->
  positive_result (binary_round_aux prec emax false m e l).
Proof.
  intros Hm He. unfold binary_round_aux.
  destruct (shr_fexp_positive m e l Hm He) as [H1 E1].
  destruct (shr_fexp prec emax m e l) as [mrs' e']. simpl in H1, E1.
  assert (H2 := round_nearest_even_positive (shr_m mrs') (loc_of_shr_record mrs') H1).
  destruct (shr_fexp_positive _ e' loc_Exact H2 E1) as [H3 E3].
  destruct (shr_fexp prec emax _ e' loc_Exact) as [mrs'' e'']. simpl in H3, E3.
  destruct (shr_m mrs'') as [|p|p]; try lia.
  destruct (e'' <=? emax - prec); reflexivity.
Qed.

Lemma binary_round_positive (p : positive) :
  positive_result (binary_round prec emax false p 0).
Proof.
  unfold binary_round, shl_align.
  destruct (fexp prec emax (Z.pos (digits2_pos p) + 0) - 0) as [|d|d] eqn:D;
    apply binary_round_aux_positive; try lia;
    unfold fexp, SpecFloat.emin, prec, emax in *; lia.
Qed.

Local Open Scope float_scope.

(** Zero divided by the double of a positive integer is zero. *)
Lemma zero_div_of_uint63 (i : int) :
  (0 < Uint63.to_Z i)%Z -> 0 / PrimFloat.of_uint63 i = 0.
Proof.
  intros Hi. apply Prim2SF_inj.
  rewrite FloatAxioms.div_spec, of_uint63_spec.
  destruct (Uint63.to_Z i) as [|p|p] eqn:E; try lia.
  unfold binary_normalize.
  assert (H := binary_round_positive p).
  change (Prim2SF 0) with (S754_zero false).
  destruct (binary_round prec emax false p 0) as [s|s| |s m e];
    simpl in H; try contradiction; subst s; reflexivity.
Qed.

Lemma of_nat_to_Z (n : nat) :
  (Z.of_nat n <= JsNumber.max_string_length)%Z ->
  Uint63.to_Z (Uint63.of_Z (Z.of_nat n)) = Z.of_nat n.
Proof.
  intros H. rewrite Uint63.of_Z_spec. apply Z.mod_small.
  unfold JsNumber.max_string_length in H. 
  change wB with (2 ^ 63)%Z. lia.
Qed.

Lemma zero_div_of_nat (n : nat) :
  (0 < n)%nat -> (Z.of_nat n <= JsNumber.max_string_length)%Z ->
  JsNumber.of_nat 0 / JsNumber.of_nat n = 0.
Proof.
  intros Hpos Hmax. unfold JsNumber.of_nat at 2.
  change (JsNumber.of_nat 0) with 0.
  apply zero_div_of_uint63. rewrite of_nat_to_Z by exact Hmax. lia.
Qed.

End FloatFacts.

(** C9. For a non-empty [s], [calculate_similarity "" s] is 0.8: the empty
    string is contained in [s], the shorter length is 0, and the score
    0.8 + (0 / length) * 0.2 is 0.8, above the threshold 0.6. *)
Theorem empty_name_scores_0_8 (s : jsstring)
    (Hne : s <> [])
    (Hlen : (Z.of_nat (length s) <= JsNumber.max_string_length)%Z) :
  calculate_similarity [] s = 0.8%float
  /\ str_eqb [] s = false
  /\ includes s [] = true
  /\ Nat.min (length (@nil ascii)) (length s) = 0
  /\ PrimFloat.leb 0.6 (calculate_similarity [] s) = true.
Proof.
  assert (Hs : calculate_similarity [] s = 0.8%float).
  { unfold calculate_similarity.
    destruct s as [|c s']; [congruence|].
    cbn [str_eqb includes starts_with orb length Nat.min Nat.max].
    rewrite zero_div_of_nat; [reflexivity | simpl; lia | exact Hlen]. }
  rewrite Hs. destruct s as [|c s']; [congruence|].
  repeat split.
Qed.

Lemma empty_name_scores_0_8_witness :
  calculate_similarity [] (str "hips") = 0.8%float.
Proof.
  apply (empty_name_scores_0_8 (str "hips")).
  - discriminate.
  - vm_compute. discriminate.
Defined.

(* ================================================================= *)
(** ** Edit distance: the recurrence gives the least number of edits *)

Section EditDistance.

Lemma lev_nil_r (x : jsstring) : lev x [] = length x.
Proof. destruct x; reflexivity. Qed.

Lemma lev_cons (a b : ascii) (x y : jsstring) :
  lev (a :: x) (b :: y)
  = min3 (lev x (b :: y) + 1) (lev (a :: x) y + 1) (lev x y + cost a b).
Proof. reflexivity. Qed.

Lemma lev_refl (x : jsstring) : lev x x = 0.
Proof.
  induction x as [|a x IH]; [reflexivity|].
  rewrite lev_cons, IH. unfold cost. rewrite Ascii.eqb_refl.
  unfold min3. lia.
Qed.

(** Dropping the head of the first string costs at most one. *)
Lemma lev_drop_left (a : ascii) (x y : jsstring) : lev (a :: x) y <= S (lev x y).
Proof.
  destruct y as [|b y].
  - rewrite !lev_nil_r. simpl. lia.
  - rewrite lev_cons. unfold min3. lia.
Qed.

Lemma lev_insert_head (c : ascii) (y : jsstring) :
  forall x, lev x (c :: y) <= S (lev x y).
Proof.
  intros [|a x].
  - simpl. lia.
  - rewrite lev_cons. unfold min3. lia.
Qed.

Lemma lev_delete_head (c : ascii) (y : jsstring) :
  forall x, lev x y <= S (lev x (c :: y)).
Proof.
  induction x as [|a x IH].
  - simpl. lia.
  - rewrite lev_cons. pose proof (lev_drop_left a x y). unfold min3. lia.
Qed.

Lemma lev_substitute_head (c d : ascii) (y : jsstring) :
  forall x, lev x (d :: y) <= S (lev x (c :: y)).
Proof.
  induction x as [|a x IH].
  - simpl. lia.
  - rewrite !lev_cons. unfold min3, cost.
    destruct (Ascii.eqb a d), (Ascii.eqb a c); lia.
Qed.

Lemma lev_under_head (c : ascii) (y z : jsstring) :
  (forall x, lev x z <= S (lev x y)) ->
  forall x, lev x (c :: z) <= S (lev x (c :: y)).
Proof.
  intros H. induction x as [|a x IH].
  - specialize (H []). simpl in *. lia.
  - rewrite !lev_cons. pose proof (H (a :: x)). pose proof (H x).
    unfold min3. lia.
Qed.

(** One edit of the second string moves the recurrence by at most one. *)
Lemma lev_edit (y z : jsstring) :
  edit y z -> forall x, lev x z <= S (lev x y).
Proof.
  intros [p c q|p c q|p c d q _]; induction p as [|e p IH]; simpl.
  - apply lev_insert_head.
  - now apply lev_under_head.
  - apply lev_delete_head.
  - now apply lev_under_head.
  - apply lev_substitute_head.
  - now apply lev_under_head.
Qed.

Lemma lev_lower_bound (n : nat) (s t : jsstring) : edits n s t -> lev s t <= n.
Proof.
  induction 1 as [s|n s t u _ IH E].
  - now rewrite lev_refl.
  - pose proof (lev_edit t u E s). lia.
Qed.

Lemma edit_cons (a : ascii) (s t : jsstring) : edit s t -> edit (a :: s) (a :: t).
Proof.
  intros [p c q|p c q|p c d q Hcd].
  - apply (insertion (a :: p)).
  - apply (deletion (a :: p)).
  - now apply (substitution (a :: p)).
Qed.

Lemma edits_cons (a : ascii) (n : nat) (s t : jsstring) :
  edits n s t -> edits n (a :: s) (a :: t).
Proof.
  induction 1 as [s|n s t u _ IH E]; [constructor|].
  apply (edits_more n _ (a :: t)); [exact IH | now apply edit_cons].
Qed.

Lemma edits_first (n : nat) (s t u : jsstring) :
  edit s t -> edits n t u -> edits (S n) s u.
Proof.
  intros E H. induction H as [t|n t v u _ IH E'].
  - apply (edits_more 0 s s); [constructor | exact E].
  - apply (edits_more (S n) s v); [now apply IH | exact E'].
Qed.

Lemma edits_insert_all (y : jsstring) : edits (length y) [] y.
Proof.
  induction y as [|c y IH]; [constructor|]. simpl.
  apply edits_first with (t := [c]).
  - apply (insertion [] c []).
  - change [c] with (c :: []). now apply edits_cons.
Qed.

Lemma edits_delete_all (x : jsstring) : edits (length x) x [].
Proof.
  induction x as [|a x IH]; [constructor|]. simpl.
  apply edits_first with (t := x); [apply (deletion [] a x) | exact IH].
Qed.

(** The recurrence is reached by a run of edits. *)
Lemma lev_reached (x : jsstring) : forall y, edits (lev x y) x y.
Proof.
  induction x as [|a x IHx]; [apply edits_insert_all|].
  induction y as [|b y IHy].
  - rewrite lev_nil_r. apply edits_delete_all.
  - rewrite lev_cons.
    assert (Hmin : let m := min3 (lev x (b :: y) + 1) (lev (a :: x) y + 1)
                              (lev x y + cost a b) in
                   m = S (lev x (b :: y)) \/ m = S (lev (a :: x) y)
                   \/ m = lev x y + cost a b)
      by (unfold min3; cbv zeta; lia).
    cbv zeta in Hmin. destruct Hmin as [-> | [-> | ->]].
    + apply edits_first with (t := x); [apply (deletion [] a x) | apply IHx].
    + apply (edits_more _ _ y); [exact IHy | apply (insertion [] b y)].
    + unfold cost. destruct (Ascii.eqb a b) eqn:E.
      * apply Ascii.eqb_eq in E. subst b. rewrite Nat.add_0_r.
        apply edits_cons, IHx.
      * rewrite Nat.add_1_r. apply edits_first with (t := b :: x).
        -- apply (substitution [] a b x). now apply Ascii.eqb_neq.
        -- apply edits_cons, IHx.
Qed.

Lemma lev_is_edit_distance (s t : jsstring) : is_edit_distance s t (lev s t).
Proof. split; [apply lev_reached | intros n; apply lev_lower_bound]. Qed.

Lemma edit_rev (s t : jsstring) : edit s t -> edit (rev s) (rev t).
Proof.
  intros [p c q|p c q|p c d q Hcd]; rewrite !rev_app_distr; simpl;
    rewrite <- ?app_assoc; simpl.
  - apply (insertion (rev q) c (rev p)).
  - apply (deletion (rev q) c (rev p)).
  - now apply (substitution (rev q) c d (rev p)).
Qed.

Lemma edits_rev (n : nat) (s t : jsstring) : edits n s t -> edits n (rev s) (rev t).
Proof.
  induction 1 as [s|n s t u _ IH E]; [constructor|].
  apply (edits_more n _ (rev t)); [exact IH | now apply edit_rev].
Qed.

(** Reading both strings from the other end changes nothing. *)
Lemma lev_rev (s t : jsstring) : lev (rev s) (rev t) = lev s t.
Proof.
  apply Nat.le_antisymm.
  - apply lev_lower_bound, edits_rev, lev_reached.
  - rewrite <- (rev_involutive s), <- (rev_involutive t) at 1.
    apply lev_lower_bound, edits_rev, lev_reached.
Qed.

End EditDistance.

(* ================================================================= *)
(** ** The matrix of [levenshtein_distance] *)

Section DistanceMatrix.

Import JsArray.

Lemma for_each_failed {St : Type} (l : list nat) (body : nat -> St -> option St) :
  fold_left (fun acc i => match acc with Some st => body i st | None => None end)
    l None = None.
Proof. induction l; simpl; auto. Qed.

Lemma for_each_cons {St : Type} (i : nat) (l : list nat)
    (body : nat -> St -> option St) (s : St) :
  for_each (i :: l) body s =
  match body i s with Some st => for_each l body st | None => None end.
Proof.
  unfold for_each. simpl. destruct (body i s); [reflexivity | apply for_each_failed].
Qed.

(** A loop whose every turn succeeds and carries the invariant from [i] to
    [i + 1] succeeds and ends with the invariant at the bound. *)
Lemma for_each_invariant {St : Type} (Inv : nat -> St -> Prop)
    (body : nat -> St -> option St) (n : nat) :
  forall (lo : nat) (s : St),
  Inv lo s ->
  (forall i st, lo <= i < lo + n -> Inv i st ->
                exists st', body i st = Some st' /\ Inv (S i) st') ->
  exists st', for_each (seq lo n) body s = Some st' /\ Inv (lo + n) st'.
Proof.
  induction n as [|n IH]; intros lo s Hs Hbody.
  - exists s. rewrite Nat.add_0_r. now split.
  - cbn [seq]. rewrite for_each_cons.
    destruct (Hbody lo s) as [st [-> Hst]]; [lia | exact Hs |].
    destruct (IH (S lo) st Hst) as [st' [Hrun Hend]].
    + intros i st0 Hi. apply Hbody. lia.
    + exists st'. split; [exact Hrun|]. now replace (lo + S n) with (S lo + n) by lia.
Qed.

Variables str1 str2 : jsstring.

Let len1 := length str1.
Let len2 := length str2.

Local Abbreviation filled := (Invariants.filled str1 str2).
Local Abbreviation rows_before := (Invariants.rows_before len1 len2).
Local Abbreviation row_upto := (Invariants.row_upto len1 len2).

Lemma get_set_row (m : matrix) (i : nat) (r : row) (i' j' : nat) :
  get (set_row m i r) i' j' = if i' =? i then r j' else get m i' j'.
Proof. unfold get, set_row. now destruct (i' =? i). Qed.

Lemma set_defined (m : matrix) (i j v : nat) :
  (exists r, m i = Some r) ->
  exists m', set m i j v = Some m'
    /\ (forall i', (exists r, m i' = Some r) -> exists r, m' i' = Some r)
    /\ forall i' j', get m' i' j' =
                     if (i' =? i) && (j' =? j) then Some v else get m i' j'.
Proof.
  intros [r Hr]. unfold set. rewrite Hr. eexists. split; [reflexivity|]. split.
  - intros i' [r' Hr']. unfold set_row. destruct (i' =? i); eauto.
  - intros i' j'. rewrite get_set_row. unfold row_set, get.
    destruct (i' =? i) eqn:E; simpl; [|reflexivity].
    apply Nat.eqb_eq in E. subst i'. rewrite Hr. reflexivity.
Qed.

Lemma cell_first_column (i : nat) : i <= len1 -> cell str1 str2 i 0 = i.
Proof.
  intros H. unfold cell. simpl. rewrite lev_nil_r, length_rev, length_firstn.
  subst len1. lia.
Qed.

Lemma cell_first_row (j : nat) : j <= len2 -> cell str1 str2 0 j = j.
Proof.
  intros H. unfold cell. simpl. rewrite length_rev, length_firstn.
  subst len2. lia.
Qed.

Lemma rev_firstn_succ (s : jsstring) (i : nat) (a : ascii) :
  nth_error s i = Some a -> rev (firstn (S i) s) = a :: rev (firstn i s).
Proof.
  revert i; induction s as [|c s IH]; intros [|i] H; simpl in *; try discriminate.
  - now injection H as ->.
  - rewrite (IH i H). reflexivity.
Qed.

(** The recurrence of the specification, as the inner loop reads it. *)
Lemma cell_step (i j : nat) :
  1 <= i <= len1 -> 1 <= j <= len2 ->
  cell str1 str2 i j =
  min3 (cell str1 str2 (i - 1) j + 1) (cell str1 str2 i (j - 1) + 1)
       (cell str1 str2 (i - 1) (j - 1) + (if same_char str1 str2 i j then 0 else 1)).
Proof.
  intros Hi Hj. destruct i as [|i]; [lia|]. destruct j as [|j]; [lia|].
  replace (S i - 1) with i by lia. replace (S j - 1) with j by lia.
  destruct (nth_error str1 i) as [a|] eqn:Ea;
    [|apply nth_error_None in Ea; subst len1; lia].
  destruct (nth_error str2 j) as [b|] eqn:Eb;
    [|apply nth_error_None in Eb; subst len2; lia].
  unfold cell, same_char.
  replace (S i - 1) with i by lia. replace (S j - 1) with j by lia.
  rewrite Ea, Eb, (rev_firstn_succ _ _ _ Ea), (rev_firstn_succ _ _ _ Eb).
  apply lev_cons.
Qed.


Lemma filled_weaken (K K' : nat -> nat -> Prop) (m : matrix) :
  (forall i j, K' i j -> K i j) -> filled K m -> filled K' m.
Proof. intros H [Hr Hc]. split; [exact Hr | intros i j Hk; apply Hc, H, Hk]. Qed.

(** First loop: [matrix[i] = [i]] for [i] from 0 to [len1]. *)
Lemma init_rows :
  exists m1,
    for_each (from_to 0 len1) (fun i m => Some (set_row m i (singleton i)))
      empty_matrix = Some m1
    /\ filled (fun i j => i <= len1 /\ j = 0) m1.
Proof.
  unfold from_to. rewrite Nat.sub_0_r.
  destruct (for_each_invariant
              (fun k (m : matrix) =>
                 forall i, i < k -> (exists r, m i = Some r) /\ get m i 0 = Some i)
              (fun i m => Some (set_row m i (singleton i))) (S len1) 0 empty_matrix)
    as [m1 [Hrun Hend]].
  - intros i Hi. lia.
  - intros k m Hk Hm. eexists. split; [reflexivity|].
    intros i Hi. rewrite get_set_row. unfold set_row.
    destruct (i =? k) eqn:E.
    + apply Nat.eqb_eq in E. subst i. split; [eauto | reflexivity].
    + apply Nat.eqb_neq in E. apply Hm. lia.
  - exists m1. split; [exact Hrun|]. split.
    + intros i Hi. apply Hend. lia.
    + intros i j [Hi ->]. rewrite cell_first_column by exact Hi. apply Hend. lia.
Qed.

(** Second loop: [matrix[0][j] = j] for [j] from 0 to [len2]. *)
Lemma first_row (m1 : matrix) :
  filled (fun i j => i <= len1 /\ j = 0) m1 ->
  exists m2,
    for_each (from_to 0 len2) (fun j m => set m 0 j j) m1 = Some m2
    /\ filled (rows_before 1) m2.
Proof.
  intros H1. unfold from_to. rewrite Nat.sub_0_r.
  destruct (for_each_invariant
              (fun k => filled (fun i j => i <= len1 /\ j <= len2
                                           /\ (j = 0 \/ (i = 0 /\ j < k))))
              (fun j m => set m 0 j j) (S len2) 0 m1)
    as [m2 [Hrun Hend]].
  - eapply filled_weaken; [|exact H1]. simpl. intros i j. lia.
  - intros k m Hk [Hrows Hcells].
    destruct (set_defined m 0 k k) as [m' [-> [Hrows' Hget]]]; [apply Hrows; lia|].
    exists m'. split; [reflexivity|]. split.
    + intros i Hi. apply Hrows', Hrows, Hi.
    + intros i j Hij. rewrite Hget.
      destruct ((i =? 0) && (j =? k)) eqn:E.
      * apply andb_true_iff in E as [Ei Ej].
        apply Nat.eqb_eq in Ei, Ej. subst i j.
        rewrite cell_first_row by lia. reflexivity.
      * apply Hcells. apply andb_false_iff in E.
        rewrite !Nat.eqb_neq in E. lia.
  - exists m2. split; [exact Hrun|].
    eapply filled_weaken; [|exact Hend]. unfold rows_before.
    intros i j. simpl. lia.
Qed.

(** One turn of the inner loop. *)
Lemma fill_cell_step (i j : nat) (m : matrix) :
  1 <= i <= len1 -> 1 <= j <= len2 ->
  filled (row_upto i j) m ->
  exists m', fill_cell str1 str2 i j m = Some m' /\ filled (row_upto i (S j)) m'.
Proof.
  intros Hi Hj [Hrows Hcells]. unfold fill_cell.
  rewrite (Hcells (i - 1) j), (Hcells i (j - 1)), (Hcells (i - 1) (j - 1));
    try (unfold row_upto; lia).
  rewrite <- cell_step by assumption.
  destruct (set_defined m i j (cell str1 str2 i j)) as [m' [-> [Hrows' Hget]]];
    [apply Hrows; lia|].
  exists m'. split; [reflexivity|]. split.
  - intros i' Hi'. apply Hrows', Hrows, Hi'.
  - intros i' j' Hij. rewrite Hget.
    destruct ((i' =? i) && (j' =? j)) eqn:E.
    + apply andb_true_iff in E as [Ei Ej].
      apply Nat.eqb_eq in Ei, Ej. now subst i' j'.
    + apply Hcells. apply andb_false_iff in E.
      rewrite !Nat.eqb_neq in E. unfold row_upto in *. lia.
Qed.

(** The inner loop fills row [i]. *)
Lemma fill_row (i : nat) (m : matrix) :
  1 <= i <= len1 ->
  filled (rows_before i) m ->
  exists m',
    for_each (from_to 1 len2) (fill_cell str1 str2 i) m = Some m'
    /\ filled (rows_before (S i)) m'.
Proof.
  intros Hi Hm. unfold from_to. replace (S len2 - 1) with len2 by lia.
  destruct (for_each_invariant (fun j => filled (row_upto i j))
              (fill_cell str1 str2 i) len2 1 m) as [m' [Hrun Hend]].
  - eapply filled_weaken; [|exact Hm].
    unfold row_upto, rows_before. intros i' j'. simpl. lia.
  - intros j st Hj Hst. apply fill_cell_step; [exact Hi | lia | exact Hst].
  - exists m'. split; [exact Hrun|].
    eapply filled_weaken; [|exact Hend].
    unfold row_upto, rows_before. intros i' j'. simpl. lia.
Qed.

(** The two nested loops fill the whole matrix. *)
Lemma fill_matrix (m2 : matrix) :
  filled (rows_before 1) m2 ->
  exists m3,
    for_each (from_to 1 len1)
      (fun i m => for_each (from_to 1 len2) (fill_cell str1 str2 i) m) m2 = Some m3
    /\ filled (rows_before (S len1)) m3.
Proof.
  intros H2. unfold from_to at 1. replace (S len1 - 1) with len1 by lia.
  destruct (for_each_invariant (fun i => filled (rows_before i))
              (fun i m => for_each (from_to 1 len2) (fill_cell str1 str2 i) m)
              len1 1 m2) as [m3 [Hrun Hend]].
  - exact H2.
  - intros i st Hi Hst. apply fill_row; [lia | exact Hst].
  - exists m3. split; [exact Hrun | exact Hend].
Qed.

(** The run of [levenshtein_distance] reads no cell it did not write, and
    returns the value of the recurrence. *)
Lemma levenshtein_distance_lev : levenshtein_distance str1 str2 = Some (lev str1 str2).
Proof.
  unfold levenshtein_distance. cbv zeta. fold len1 len2.
  destruct init_rows as [m1 [-> H1]].
  destruct (first_row m1 H1) as [m2 [-> H2]].
  destruct (fill_matrix m2 H2) as [m3 [-> [_ H3]]].
  rewrite (H3 len1 len2) by (unfold rows_before; lia).
  unfold cell, len1, len2. rewrite !firstn_all. now rewrite lev_rev.
Qed.

End DistanceMatrix.

(** C3. [levenshtein_distance] returns, for every pair of strings, the least
    number of single-character insertions, deletions and substitutions that
    turn the first into the second, which is the value of the recurrence of
    the specification; it gives 3 on "kitten" and "sitting", 0 on two empty
    strings and 1 on "a" and the empty string. *)
Theorem levenshtein_distance_correct :
  (forall s t : jsstring,
      exists d, levenshtein_distance s t = Some d
                /\ is_edit_distance s t d
                /\ d = lev s t)
  /\ levenshtein_distance (str "kitten") (str "sitting") = Some 3
  /\ levenshtein_distance (str "") (str "") = Some 0
  /\ levenshtein_distance (str "a") (str "") = Some 1.
Proof.
  split; [|repeat split].
  intros s t. exists (lev s t). split; [apply levenshtein_distance_lev|].
  split; [apply lev_is_edit_distance | reflexivity].
Qed.
(* ================================================================= *)
(** ** Whole-word replacement *)

Section WholeWords.

Variable w : jsstring.
Hypothesis w_plain : plain_word w.

Lemma plain_word_cons : exists a w', w = a :: w' /\ is_word_char a = true
                                     /\ forallb is_word_char w' = true.
Proof.
  destruct w_plain as [Hne Hall]. destruct w as [|a w']; [congruence|].
  simpl in Hall. apply andb_true_iff in Hall as [Ha Hw'].
  now exists a, w'.
Qed.

(** After a word character, a literal of word characters matches exactly
    the strings that spell it out and then stop being a word. *)
Lemma literal_after_word (u s : jsstring) :
  forallb is_word_char u = true ->
  literal_then_boundary u true s = true <->
  exists t, s = u ++ t /\ head_is_word t = false.
Proof.
  revert s. induction u as [|a u IH]; intros s Hu; simpl.
  - unfold word_boundary. split.
    + intros H. exists s. split; [reflexivity|]. now destruct (head_is_word s).
    + intros [t [-> H]]. simpl. now rewrite H.
  - simpl in Hu. apply andb_true_iff in Hu as [Ha Hu].
    destruct s as [|c s].
    + split; [discriminate | intros [t [H _]]; discriminate].
    + rewrite andb_true_iff, Ascii.eqb_eq. split.
      * intros [<- H]. rewrite Ha in H. apply IH in H as [t [-> Ht]]; [|exact Hu].
        now exists t.
      * intros [t [H Ht]]. injection H as -> ->. split; [reflexivity|].
        rewrite Ha. apply IH; [exact Hu|]. now exists t.
Qed.

(** [/\bw\b/] matches at the head exactly when no word character comes
    before, the input spells [w], and no word character follows. *)
Lemma matches_word_iff (prev : bool) (s : jsstring) :
  matches_word w prev s = true <->
  prev = false /\ exists t, s = w ++ t /\ head_is_word t = false.
Proof.
  destruct plain_word_cons as [a [w' [Hw [Ha Hw']]]].
  unfold matches_word. rewrite Hw. cbn [literal_then_boundary].
  destruct s as [|c s].
  - rewrite andb_false_r. split; [discriminate | intros [_ [t [H _]]]; discriminate].
  - rewrite !andb_true_iff, Ascii.eqb_eq. split.
    + intros [Hb [<- H]]. unfold word_boundary in Hb. simpl in Hb.
      rewrite Ha in Hb, H. destruct prev; [discriminate|]. split; [reflexivity|].
      apply literal_after_word in H as [t [-> Ht]]; [|exact Hw'].
      now exists t.
    + intros [-> [t [H Ht]]]. injection H as -> ->.
      unfold word_boundary. simpl. rewrite Ha. repeat split.
      apply literal_after_word; [exact Hw'|]. now exists t.
Qed.

Lemma no_match_after_word (s : jsstring) : matches_word w true s = false.
Proof.
  apply not_true_iff_false. intros H. now apply matches_word_iff in H as [H _].
Qed.

(** *** The scan *)

Variable r : jsstring.

Lemma replace_skip (a t : jsstring) (prev : bool) :
  forallb is_word_char a = true ->
  replace_words_from w r prev (length a) (a ++ t)
  = replace_words_from w r (match a with [] => prev | _ => true end) 0 t.
Proof.
  revert prev. induction a as [|c a IH]; intros prev Ha; [reflexivity|].
  simpl in Ha. apply andb_true_iff in Ha as [Hc Ha].
  cbn [length app replace_words_from]. rewrite Hc, (IH true Ha).
  now destruct a.
Qed.

Lemma replace_at_match (t : jsstring) :
  head_is_word t = false ->
  replace_words_from w r false 0 (w ++ t) = r ++ replace_words_from w r true 0 t.
Proof.
  intros Ht.
  assert (Hm : matches_word w false (w ++ t) = true)
    by (apply matches_word_iff; split; [reflexivity | now exists t]).
  destruct plain_word_cons as [a [w' [Hw [Ha Hw']]]].
  assert (E : w ++ t = a :: (w' ++ t)) by now rewrite Hw.
  rewrite E in *. cbn [replace_words_from]. rewrite Hm.
  replace (length w - 1) with (length w') by (rewrite Hw; simpl; lia).
  rewrite Ha, (replace_skip w' t true Hw').
  now destruct w'.
Qed.

Lemma replace_no_match (prev : bool) (c : ascii) (s : jsstring) :
  matches_word w prev (c :: s) = false ->
  replace_words_from w r prev 0 (c :: s)
  = c :: replace_words_from w r (is_word_char c) 0 s.
Proof. intros H. cbn [replace_words_from]. now rewrite H. Qed.

Lemma replace_after_word (c : ascii) (s : jsstring) :
  replace_words_from w r true 0 (c :: s)
  = c :: replace_words_from w r (is_word_char c) 0 s.
Proof. apply replace_no_match, no_match_after_word. Qed.

Lemma head_replace_after_word (s : jsstring) :
  head_is_word (replace_words_from w r true 0 s) = head_is_word s.
Proof. destruct s; [reflexivity | now rewrite replace_after_word]. Qed.

Lemma replace_copied_word (u t s : jsstring) :
  forallb is_word_char u = true ->
  replace_words_from w r true 0 s = u ++ t ->
  exists t', s = u ++ t' /\ replace_words_from w r true 0 t' = t.
Proof.
  revert s. induction u as [|c u IH]; intros s Hu H.
  - now exists s.
  - simpl in Hu. apply andb_true_iff in Hu as [Hc Hu].
    destruct s as [|c' s]; [discriminate|].
    rewrite replace_after_word in H. injection H as -> H.
    rewrite Hc in H. destruct (IH s Hu H) as [t' [-> Ht']].
    now exists t'.
Qed.

(** A string without a whole-word [w] goes through the scan unchanged. *)
Lemma replace_without_word (s : jsstring) :
  forall prev, has_word w prev s = false -> replace_words_from w r prev 0 s = s.
Proof.
  induction s as [|c s IH]; intros prev H; [reflexivity|].
  cbn [has_word] in H. apply orb_false_iff in H as [Hm Hs].
  rewrite replace_no_match by exact Hm. now rewrite IH.
Qed.

End WholeWords.

Section WordSurvival.

(** The scan for [w2] (replaced by [r2]) against the whole word [w]. *)
Variables w w2 r2 : jsstring.
Hypothesis w_plain : plain_word w.
Hypothesis w2_plain : plain_word w2.
Hypothesis r2_plain : plain_word r2.
Hypothesis r2_differs : r2 <> w.

Lemma has_word_after_word (u t : jsstring) :
  forallb is_word_char u = true ->
  has_word w true (u ++ t) = has_word w true t.
Proof.
  induction u as [|c u IH]; intros Hu; [reflexivity|].
  simpl in Hu. apply andb_true_iff in Hu as [Hc Hu].
  cbn [app has_word]. rewrite (no_match_after_word w w_plain), Hc. now apply IH.
Qed.

Lemma has_word_block (u t : jsstring) :
  plain_word u ->
  has_word w false (u ++ t) = matches_word w false (u ++ t) || has_word w true t.
Proof.
  intros [Hne Hu]. destruct u as [|c u]; [congruence|].
  simpl in Hu. apply andb_true_iff in Hu as [Hc Hu].
  cbn [app has_word]. rewrite Hc. f_equal. now apply has_word_after_word.
Qed.

Lemma has_word_suffix (u t : jsstring) :
  plain_word u -> has_word w false (u ++ t) = false -> has_word w true t = false.
Proof.
  intros Hu H. rewrite (has_word_block u t Hu) in H.
  now apply orb_false_iff in H as [_ H].
Qed.

Lemma same_word (a : jsstring) :
  forall b t t',
  forallb is_word_char a = true -> forallb is_word_char b = true ->
  head_is_word t = false -> head_is_word t' = false ->
  a ++ t = b ++ t' -> a = b.
Proof.
  induction a as [|x a IH]; intros [|y b] t t' Ha Hb Ht Ht' H; simpl in *.
  - reflexivity.
  - subst t. simpl in Ht. apply andb_true_iff in Hb as [Hy _]. congruence.
  - subst t'. simpl in Ht'. apply andb_true_iff in Ha as [Hx _]. congruence.
  - apply andb_true_iff in Ha as [_ Ha]. apply andb_true_iff in Hb as [_ Hb].
    injection H as -> H. f_equal. now apply (IH b t t').
Qed.

Lemma no_match_in_replacement (t : jsstring) :
  head_is_word t = false -> matches_word w false (r2 ++ t) = false.
Proof.
  intros Ht. apply not_true_iff_false. intros H.
  apply (matches_word_iff w w_plain) in H as [_ [t' [H Ht']]].
  apply r2_differs.
  apply (same_word r2 w t t'); [apply r2_plain | apply w_plain | assumption..].
Qed.

(** A match of [w] at a code unit the scan copies was a match before it. *)
Lemma match_survives (prev : bool) (c : ascii) (s : jsstring) :
  matches_word w prev (c :: replace_words_from w2 r2 (is_word_char c) 0 s) = true ->
  matches_word w prev (c :: s) = true.
Proof.
  intros H. apply (matches_word_iff w w_plain) in H as [-> [t [H Ht]]].
  destruct (plain_word_cons w w_plain) as [a [w' [Hw [Ha Hw']]]].
  rewrite Hw in H. injection H as -> H. rewrite Ha in H.
  apply (replace_copied_word w2 w2_plain) in H as [t' [-> Ht'']]; [|exact Hw'].
  apply (matches_word_iff w w_plain). split; [reflexivity|].
  exists t'. split; [now rewrite Hw|].
  rewrite <- Ht'' in Ht. now rewrite (head_replace_after_word w2 w2_plain) in Ht.
Qed.

(** After the scan for [w2], no whole word [w] is left when [w] is [w2]
    itself, or when there was none before. *)
Lemma has_word_replace (n : nat) :
  forall s prev,
  length s <= n ->
  w = w2 \/ has_word w prev s = false ->
  has_word w prev (replace_words_from w2 r2 prev 0 s) = false.
Proof.
  induction n as [|n IH]; intros [|c s] prev Hlen Hs; try reflexivity;
    [simpl in Hlen; lia|].
  destruct (matches_word w2 prev (c :: s)) eqn:M.
  - apply (matches_word_iff w2 w2_plain) in M as [-> [t [E Ht]]].
    rewrite E in *. rewrite (replace_at_match w2 w2_plain r2 t Ht).
    rewrite (has_word_block r2 _ r2_plain).
    rewrite no_match_in_replacement
      by now rewrite (head_replace_after_word w2 w2_plain).
    apply IH.
    + destruct w2_plain as [Hne _]. rewrite length_app in Hlen.
      destruct w2; [congruence | simpl in Hlen; lia].
    + destruct Hs as [Hs|Hs]; [now left | right].
      now apply (has_word_suffix w2 t w2_plain).
  - rewrite (replace_no_match w2 r2 prev c s M). cbn [has_word].
    apply orb_false_iff. split.
    + apply not_true_iff_false. intros H. apply match_survives in H.
      destruct Hs as [Hs|Hs].
      * subst w2. congruence.
      * cbn [has_word] in Hs. apply orb_false_iff in Hs as [Hs _]. congruence.
    + apply IH; [simpl in Hlen; lia|].
      destruct Hs as [Hs|Hs]; [now left | right].
      cbn [has_word] in Hs. now apply orb_false_iff in Hs as [_ Hs].
Qed.

End WordSurvival.

(* ================================================================= *)
(** ** Anchored replacements *)

Section AnchoredReplacements.

Lemma skipn_prefix (p t : jsstring) : skipn (length p) (p ++ t) = t.
Proof. induction p; simpl; auto. Qed.

Lemma ends_with_iff (p s : jsstring) :
  ends_with p s = true <-> exists u, s = u ++ p.
Proof.
  unfold ends_with. rewrite starts_with_iff. split.
  - intros [t H]. exists (rev t).
    rewrite <- (rev_involutive s), H, rev_app_distr, rev_involutive. reflexivity.
  - intros [u ->]. exists (rev u). apply rev_app_distr.
Qed.

Lemma firstn_suffix (u p : jsstring) :
  firstn (length (u ++ p) - length p) (u ++ p) = u.
Proof.
  rewrite length_app, Nat.add_sub.
  rewrite firstn_app, Nat.sub_diag, firstn_all. simpl. apply app_nil_r.
Qed.

Lemma replace_leading_cases (p r s : jsstring) :
  (starts_with p s = false /\ replace_leading p r s = s)
  \/ exists t, s = p ++ t /\ replace_leading p r s = r ++ t.
Proof.
  unfold replace_leading. destruct (starts_with p s) eqn:E; [right | now left].
  apply starts_with_iff in E as [t ->]. exists t. now rewrite skipn_prefix.
Qed.

Lemma replace_trailing_cases (p r s : jsstring) :
  (ends_with p s = false /\ replace_trailing p r s = s)
  \/ exists u, s = u ++ p /\ replace_trailing p r s = u ++ r.
Proof.
  unfold replace_trailing. destruct (ends_with p s) eqn:E; [right | now left].
  apply ends_with_iff in E as [u ->]. exists u. now rewrite firstn_suffix.
Qed.

Variable w : jsstring.
Hypothesis w_plain : plain_word w.

(** A leading word block replaced by another one that [w] does not match. *)
Lemma has_word_replace_leading (p r s : jsstring) :
  plain_word p -> plain_word r ->
  (forall t, matches_word w false (r ++ t) = false) ->
  has_word w false s = false ->
  has_word w false (replace_leading p r s) = false.
Proof.
  intros Hp Hr Hm Hs.
  destruct (replace_leading_cases p r s) as [[_ ->]|[t [-> ->]]]; [exact Hs|].
  rewrite (has_word_block w w_plain r t Hr), Hm. simpl.
  now apply (has_word_suffix w w_plain p t Hp).
Qed.

Hypothesis w_no_underscore : forall c, In c w -> c <> underscore.

Lemma literal_before_underscore (x x' : jsstring) :
  forall v u prev,
  (forall c, In c v -> c <> underscore) ->
  literal_then_boundary v prev (u ++ underscore :: x)
  = literal_then_boundary v prev (u ++ underscore :: x').
Proof.
  induction v as [|a v IH]; intros u prev Hv; simpl.
  - unfold word_boundary. now destruct u.
  - destruct u as [|c u]; simpl.
    + assert (Ha : a <> underscore) by (apply Hv; now left).
      apply Ascii.eqb_neq in Ha. now rewrite Ha.
    + f_equal. apply IH. intros c' Hc'. apply Hv. now right.
Qed.

Lemma matches_before_underscore (x x' u : jsstring) (prev : bool) :
  matches_word w prev (u ++ underscore :: x)
  = matches_word w prev (u ++ underscore :: x').
Proof.
  unfold matches_word.
  rewrite (literal_before_underscore x x' w u prev w_no_underscore).
  f_equal. unfold word_boundary. now destruct u.
Qed.

Lemma has_word_only_words (x : jsstring) :
  forallb is_word_char x = true -> has_word w true x = false.
Proof.
  intros Hx. rewrite <- (app_nil_r x).
  now rewrite (has_word_after_word w w_plain x []).
Qed.

(** What follows the last underscore does not matter while it is made of
    word characters. *)
Lemma has_word_before_underscore (x x' : jsstring) :
  forallb is_word_char x = true -> forallb is_word_char x' = true ->
  forall u prev,
  has_word w prev (u ++ underscore :: x) = has_word w prev (u ++ underscore :: x').
Proof.
  intros Hx Hx'. induction u as [|c u IH]; intros prev.
  - pose proof (matches_before_underscore x x' [] prev) as E.
    cbn [app has_word] in *. rewrite E.
    change (is_word_char underscore) with true.
    now rewrite !has_word_only_words.
  - pose proof (matches_before_underscore x x' (c :: u) prev) as E.
    cbn [app has_word] in *. rewrite E. f_equal. apply IH.
Qed.

Lemma has_word_replace_trailing (x x' s : jsstring) :
  forallb is_word_char x = true -> forallb is_word_char x' = true ->
  has_word w false s = false ->
  has_word w false (replace_trailing (underscore :: x) (underscore :: x') s) = false.
Proof.
  intros Hx Hx' Hs.
  destruct (replace_trailing_cases (underscore :: x) (underscore :: x') s)
    as [[_ ->]|[u [-> ->]]]; [exact Hs|].
  now rewrite (has_word_before_underscore x' x Hx' Hx).
Qed.

End AnchoredReplacements.

(* ================================================================= *)
(** ** The normalizer applied twice *)

(** A literal of the source is a plain word: both parts by evaluation. *)
Ltac plain := split; [discriminate | reflexivity].

(** A leading marker is replaced by a block that the word does not match. *)
Ltac leading H :=
  apply has_word_replace_leading;
  [plain | plain | plain | intros ?; reflexivity | exact H].

Section NormalizeTwice.

Lemma settled_char_after_first_steps (c : ascii) :
  settled_char (if is_separator (lower_char c) then underscore else lower_char c) = true.
Proof. destruct c as [[] [] [] [] [] [] [] []]; reflexivity. Qed.

Lemma settled_first_steps (x : jsstring) : settled (replace_separators (toLowerCase x)).
Proof.
  unfold settled, replace_separators, replace_class, toLowerCase.
  induction x as [|c x IH]; [reflexivity|]. cbn [map forallb].
  now rewrite settled_char_after_first_steps.
Qed.

Lemma settled_toLowerCase (s : jsstring) : settled s -> toLowerCase s = s.
Proof.
  unfold settled, toLowerCase. induction s as [|c s IH]; [reflexivity|].
  cbn [map forallb]. rewrite andb_true_iff. intros [Hc Hs].
  unfold settled_char in Hc. apply andb_true_iff in Hc as [Hc _].
  apply Ascii.eqb_eq in Hc. now rewrite Hc, IH.
Qed.

Lemma settled_replace_separators (s : jsstring) : settled s -> replace_separators s = s.
Proof.
  unfold settled, replace_separators, replace_class.
  induction s as [|c s IH]; [reflexivity|].
  cbn [map forallb]. rewrite andb_true_iff. intros [Hc Hs].
  unfold settled_char in Hc. apply andb_true_iff in Hc as [_ Hc].
  apply negb_true_iff in Hc. now rewrite Hc, IH.
Qed.

Lemma settled_app (a b : jsstring) : settled (a ++ b) <-> settled a /\ settled b.
Proof. unfold settled. rewrite forallb_app. apply andb_true_iff. Qed.

Lemma settled_skipn (n : nat) (s : jsstring) : settled s -> settled (skipn n s).
Proof.
  intros H. rewrite <- (firstn_skipn n s) in H. now apply settled_app in H as [_ H].
Qed.

Lemma settled_firstn (n : nat) (s : jsstring) : settled s -> settled (firstn n s).
Proof.
  intros H. rewrite <- (firstn_skipn n s) in H. now apply settled_app in H as [H _].
Qed.

Lemma settled_strip (s : jsstring) : settled s -> settled (strip_rig_prefix s).
Proof.
  intros H. unfold strip_rig_prefix, strip_alternative.
  destruct (matched_alternative rig_prefixes s); [now apply settled_skipn | exact H].
Qed.

Lemma settled_replace_words (w r : jsstring) :
  settled r ->
  forall s prev skip, settled s -> settled (replace_words_from w r prev skip s).
Proof.
  intros Hr. induction s as [|c s IH]; intros prev skip Hs; [reflexivity|].
  change (c :: s) with ([c] ++ s) in Hs. apply settled_app in Hs as [Hc Hs].
  cbn [replace_words_from]. destruct skip as [|k]; [|now apply IH].
  destruct (matches_word w prev (c :: s)).
  - apply settled_app. split; [exact Hr | now apply IH].
  - change (settled ([c] ++ replace_words_from w r (is_word_char c) 0 s)).
    apply settled_app. split; [exact Hc | now apply IH].
Qed.

Lemma settled_replace_leading (p r s : jsstring) :
  settled r -> settled s -> settled (replace_leading p r s).
Proof.
  intros Hr Hs. unfold replace_leading. destruct (starts_with p s); [|exact Hs].
  apply settled_app. split; [exact Hr | now apply settled_skipn].
Qed.

Lemma settled_replace_trailing (p r s : jsstring) :
  settled r -> settled s -> settled (replace_trailing p r s).
Proof.
  intros Hr Hs. unfold replace_trailing. destruct (ends_with p s); [|exact Hs].
  apply settled_app. split; [now apply settled_firstn | exact Hr].
Qed.

Lemma settled_normalize (x : jsstring) : settled (normalize_bone_name x).
Proof.
  unfold normalize_bone_name, expand_sides, shorten_sides, replace_whole_word.
  cbv zeta.
  repeat first [ apply settled_replace_trailing; [reflexivity|]
               | apply settled_replace_leading; [reflexivity|]
               | apply settled_replace_words; [reflexivity|] ].
  apply settled_strip, settled_first_steps.
Qed.

(** *** The side markers *)

Lemma whole_word_gone (w r s : jsstring) :
  plain_word w -> plain_word r -> r <> w ->
  has_word w false (replace_whole_word w r s) = false.
Proof.
  intros Hw Hr Hne. unfold replace_whole_word.
  apply (has_word_replace w w r Hw Hw Hr Hne (length s)); [lia | now left].
Qed.

Lemma whole_word_kept_out (w w2 r2 s : jsstring) :
  plain_word w -> plain_word w2 -> plain_word r2 -> r2 <> w ->
  has_word w false s = false ->
  has_word w false (replace_whole_word w2 r2 s) = false.
Proof.
  intros Hw Hw2 Hr2 Hne Hs. unfold replace_whole_word.
  apply (has_word_replace w w2 r2 Hw Hw2 Hr2 Hne (length s)); [lia | now right].
Qed.

Lemma replace_leading_done (p r s : jsstring) :
  (forall t, starts_with p (r ++ t) = false) ->
  starts_with p (replace_leading p r s) = false.
Proof.
  intros H. destruct (replace_leading_cases p r s) as [[E ->]|[t [_ ->]]];
    [exact E | apply H].
Qed.

Lemma replace_leading_other (q p r s : jsstring) :
  (forall t, starts_with q (r ++ t) = false) ->
  starts_with q s = false -> starts_with q (replace_leading p r s) = false.
Proof.
  intros H Hs. destruct (replace_leading_cases p r s) as [[_ ->]|[t [_ ->]]];
    [exact Hs | apply H].
Qed.

Lemma starts_with_before_underscore (a b : ascii) (x x' u : jsstring) :
  a <> underscore ->
  starts_with [a; b] (u ++ underscore :: x) = starts_with [a; b] (u ++ underscore :: x').
Proof.
  intros Ha. apply Ascii.eqb_neq in Ha.
  destruct u as [|c1 [|c2 u]]; simpl; [now rewrite Ha | reflexivity..].
Qed.

Lemma replace_trailing_start (a b : ascii) (x x' s : jsstring) :
  a <> underscore ->
  starts_with [a; b] s = false ->
  starts_with [a; b] (replace_trailing (underscore :: x) (underscore :: x') s) = false.
Proof.
  intros Ha Hs.
  destruct (replace_trailing_cases (underscore :: x) (underscore :: x') s)
    as [[_ ->]|[u [-> ->]]]; [exact Hs|].
  now rewrite (starts_with_before_underscore a b x' x u Ha).
Qed.

Lemma no_suffix_after (q r u : jsstring) :
  starts_with (rev q) (rev r) = false -> length q <= length r ->
  ends_with q (u ++ r) = false.
Proof.
  intros H Hlen. unfold ends_with. rewrite rev_app_distr.
  apply not_true_iff_false. intros E. apply starts_with_iff in E as [t E].
  apply not_true_iff_false in H. apply H. apply starts_with_iff.
  exists (firstn (length r - length q) t).
  apply (f_equal (firstn (length r))) in E.
  rewrite firstn_app, length_rev, Nat.sub_diag, firstn_all2 in E
    by (rewrite length_rev; lia).
  simpl in E. rewrite app_nil_r in E. rewrite E.
  rewrite firstn_app, firstn_all2 by (rewrite length_rev; lia).
  now rewrite length_rev.
Qed.

Lemma replace_trailing_done (p r s : jsstring) :
  starts_with (rev p) (rev r) = false -> length p <= length r ->
  ends_with p (replace_trailing p r s) = false.
Proof.
  intros H Hlen. destruct (replace_trailing_cases p r s) as [[E ->]|[u [_ ->]]];
    [exact E | now apply no_suffix_after].
Qed.

Lemma replace_trailing_other (q p r s : jsstring) :
  starts_with (rev q) (rev r) = false -> length q <= length r ->
  ends_with q s = false -> ends_with q (replace_trailing p r s) = false.
Proof.
  intros H Hlen Hs. destruct (replace_trailing_cases p r s) as [[_ ->]|[u [_ ->]]];
    [exact Hs | now apply no_suffix_after].
Qed.

(** What one pass leaves behind: no whole word "left" or "right", no
    leading "l_" or "r_", no trailing "_l" or "_r". *)
Lemma sides_settled (y0 : jsstring) :
  let y := expand_sides (shorten_sides y0) in
  has_word (str "left") false y = false
  /\ has_word (str "right") false y = false
  /\ starts_with (str "l_") y = false
  /\ starts_with (str "r_") y = false
  /\ ends_with (str "_l") y = false
  /\ ends_with (str "_r") y = false.
Proof.
  unfold expand_sides, shorten_sides. cbv zeta.
  assert (Pleft : plain_word (str "left")) by plain.
  assert (Pright : plain_word (str "right")) by plain.
  assert (Nleft : forall c, In c (str "left") -> c <> underscore)
    by (intros c Hc; simpl in Hc; intuition (subst; discriminate)).
  assert (Nright : forall c, In c (str "right") -> c <> underscore)
    by (intros c Hc; simpl in Hc; intuition (subst; discriminate)).
  set (z4 := replace_whole_word (str "left") (str "l") y0).
  set (z5 := replace_whole_word (str "right") (str "r") z4).
  set (z6 := replace_leading (str "l_") (str "left_") z5).
  set (z7 := replace_leading (str "r_") (str "right_") z6).
  set (z8 := replace_trailing (str "_l") (str "_left") z7).
  (* the whole words *)
  assert (A4 : has_word (str "left") false z4 = false)
    by (apply whole_word_gone; [plain | plain | discriminate]).
  assert (A5 : has_word (str "left") false z5 = false)
    by (apply whole_word_kept_out; [plain | plain | plain | discriminate | exact A4]).
  assert (B5 : has_word (str "right") false z5 = false)
    by (apply whole_word_gone; [plain | plain | discriminate]).
  (* the leading markers *)
  assert (A6 : has_word (str "left") false z6 = false) by leading A5.
  assert (B6 : has_word (str "right") false z6 = false) by leading B5.
  assert (C6 : starts_with (str "l_") z6 = false)
    by (apply replace_leading_done; reflexivity).
  assert (A7 : has_word (str "left") false z7 = false) by leading A6.
  assert (B7 : has_word (str "right") false z7 = false) by leading B6.
  assert (C7 : starts_with (str "l_") z7 = false)
    by (apply replace_leading_other; [reflexivity | exact C6]).
  assert (D7 : starts_with (str "r_") z7 = false)
    by (apply replace_leading_done; reflexivity).
  (* the trailing markers *)
  assert (A8 : has_word (str "left") false z8 = false)
    by (apply (has_word_replace_trailing _ Pleft Nleft (str "l") (str "left"));
        [reflexivity.. | exact A7]).
  assert (B8 : has_word (str "right") false z8 = false)
    by (apply (has_word_replace_trailing _ Pright Nright (str "l") (str "left"));
        [reflexivity.. | exact B7]).
  assert (C8 : starts_with (str "l_") z8 = false)
    by (apply (replace_trailing_start "l" "_" (str "l") (str "left"));
        [discriminate | exact C7]).
  assert (D8 : starts_with (str "r_") z8 = false)
    by (apply (replace_trailing_start "r" "_" (str "l") (str "left"));
        [discriminate | exact D7]).
  assert (E8 : ends_with (str "_l") z8 = false)
    by (apply replace_trailing_done; [reflexivity | simpl; lia]).
  repeat split.
  - apply (has_word_replace_trailing _ Pleft Nleft (str "r") (str "right"));
      [reflexivity.. | exact A8].
  - apply (has_word_replace_trailing _ Pright Nright (str "r") (str "right"));
      [reflexivity.. | exact B8].
  - apply (replace_trailing_start "l" "_" (str "r") (str "right"));
      [discriminate | exact C8].
  - apply (replace_trailing_start "r" "_" (str "r") (str "right"));
      [discriminate | exact D8].
  - apply replace_trailing_other; [reflexivity | simpl; lia | exact E8].
  - apply replace_trailing_done; [reflexivity | simpl; lia].
Qed.

End NormalizeTwice.

(** C4, as the specification words it: normalizing twice is normalizing
    once.  On "rig_rig_a" the first pass strips one "rig_" and the second
    pass strips the other. *)
Lemma normalize_idempotent_counterexample :
  normalize_bone_name (normalize_bone_name (str "rig_rig_a"))
  <> normalize_bone_name (str "rig_rig_a").
Proof. vm_compute. discriminate. Qed.

(** C4, amended. Normalizing twice is normalizing once whenever the
    normalized name does not begin with a rig prefix again, that is, when the
    prefix strip leaves it as it is. *)
Theorem normalize_idempotent_without_prefix (x : jsstring)
    (H : strip_rig_prefix (normalize_bone_name x) = normalize_bone_name x) :
  normalize_bone_name (normalize_bone_name x) = normalize_bone_name x.
Proof.
  assert (Hs := settled_normalize x).
  destruct (sides_settled (strip_rig_prefix (replace_separators (toLowerCase x))))
    as [A [B [C [D [E F]]]]].
  change (expand_sides (shorten_sides (strip_rig_prefix
            (replace_separators (toLowerCase x)))))
    with (normalize_bone_name x) in *.
  set (y := normalize_bone_name x) in *.
  unfold normalize_bone_name at 1. cbv zeta.
  rewrite (settled_toLowerCase y Hs), (settled_replace_separators y Hs), H.
  unfold shorten_sides, replace_whole_word. cbv zeta.
  rewrite (replace_without_word _ _ y false A), (replace_without_word _ _ y false B).
  unfold expand_sides, replace_leading, replace_trailing. cbv zeta.
  now rewrite C, D, E, F.
Qed.

Lemma normalize_idempotent_without_prefix_witness :
  normalize_bone_name (normalize_bone_name (str "left Hand.L"))
  = normalize_bone_name (str "left Hand.L").
Proof.
  apply normalize_idempotent_without_prefix. reflexivity.
Defined.

(* ================================================================= *)
(** ** Further properties: the distance is a metric *)

Section DistanceMetric.

Lemma edit_sym (s t : jsstring) : edit s t -> edit t s.
Proof.
  intros [p c q|p c q|p c d q Hcd].
  - apply deletion.
  - apply insertion.
  - apply substitution. congruence.
Qed.

Lemma edits_sym (n : nat) (s t : jsstring) : edits n s t -> edits n t s.
Proof.
  induction 1 as [s|n s t u _ IH E]; [constructor|].
  apply (edits_first n u t s); [now apply edit_sym | exact IH].
Qed.

Lemma edits_trans (n m : nat) (s t u : jsstring) :
  edits n s t -> edits m t u -> edits (n + m) s u.
Proof.
  intros Hst Htu. induction Htu as [t|m t v u _ IH E].
  - now rewrite Nat.add_0_r.
  - rewrite Nat.add_succ_r. apply (edits_more _ s v u); [now apply IH | exact E].
Qed.

Lemma edit_length (s t : jsstring) :
  edit s t -> length t <= S (length s) /\ length s <= S (length t).
Proof.
  intros [p c q|p c q|p c d q _]; rewrite !length_app; simpl; lia.
Qed.

Lemma edits_length (n : nat) (s t : jsstring) :
  edits n s t -> length t <= length s + n /\ length s <= length t + n.
Proof.
  induction 1 as [s|n s t u _ IH E]; [lia|].
  apply edit_length in E. lia.
Qed.

Lemma lev_sym (s t : jsstring) : lev s t = lev t s.
Proof.
  apply Nat.le_antisymm; apply lev_lower_bound, edits_sym, lev_reached.
Qed.

Lemma lev_le_max (s : jsstring) : forall t, lev s t <= Nat.max (length s) (length t).
Proof.
  induction s as [|a s IH]; intros t; [simpl; lia|].
  destruct t as [|b t]; [rewrite lev_nil_r; lia|].
  rewrite lev_cons. specialize (IH t). unfold min3, cost. simpl.
  destruct (Ascii.eqb a b); lia.
Qed.

Lemma lev_zero (s t : jsstring) : lev s t = 0 -> s = t.
Proof.
  intros H. pose proof (lev_reached s t) as E. rewrite H in E.
  now inversion E.
Qed.

End DistanceMetric.

(** X1. [levenshtein_distance] is symmetric. *)
Theorem levenshtein_distance_symmetric (str1 str2 : jsstring) :
  levenshtein_distance str1 str2 = levenshtein_distance str2 str1.
Proof. rewrite !levenshtein_distance_lev. f_equal. apply lev_sym. Qed.

(** X2. [levenshtein_distance] is 0 exactly on equal strings. *)
Theorem levenshtein_distance_zero_iff (str1 str2 : jsstring) :
  levenshtein_distance str1 str2 = Some 0 <-> str1 = str2.
Proof.
  rewrite levenshtein_distance_lev. split.
  - intros [= H]. now apply lev_zero.
  - intros ->. now rewrite lev_refl.
Qed.

(** X3. The distance lies between the difference of the two lengths and
    the greater of them. *)
Theorem levenshtein_distance_bounds (str1 str2 : jsstring) :
  exists d, levenshtein_distance str1 str2 = Some d
            /\ length str1 - length str2 <= d
            /\ length str2 - length str1 <= d
            /\ d <= Nat.max (length str1) (length str2).
Proof.
  exists (lev str1 str2). split; [apply levenshtein_distance_lev|].
  pose proof (edits_length _ _ _ (lev_reached str1 str2)).
  pose proof (lev_le_max str1 str2). lia.
Qed.

(** X4. The distance obeys the triangle inequality. *)
Theorem levenshtein_distance_triangle (s t u : jsstring) :
  exists a b c,
    levenshtein_distance s t = Some a
    /\ levenshtein_distance t u = Some b
    /\ levenshtein_distance s u = Some c
    /\ c <= a + b.
Proof.
  exists (lev s t), (lev t u), (lev s u).
  rewrite !levenshtein_distance_lev. repeat split.
  apply lev_lower_bound. apply (edits_trans _ _ s t u); apply lev_reached.
Qed.

Lemma str_eqb_sym (a b : jsstring) : str_eqb a b = str_eqb b a.
Proof.
  destruct (str_eqb a b) eqn:E.
  - apply str_eqb_eq in E. subst b. now rewrite str_eqb_refl.
  - destruct (str_eqb b a) eqn:E'; [|reflexivity].
    apply str_eqb_eq in E'. subst b. now rewrite str_eqb_refl in E.
Qed.

(** X5. [calculate_similarity] does not depend on the order of its two
    names. *)
Theorem calculate_similarity_symmetric (name1 name2 : jsstring) :
  calculate_similarity name1 name2 = calculate_similarity name2 name1.
Proof.
  unfold calculate_similarity.
  rewrite (str_eqb_sym name2 name1), (orb_comm (includes name2 name1)),
    (Nat.max_comm (length name2)), (Nat.min_comm (length name2)),
    !levenshtein_distance_lev, (lev_sym name2 name1).
  reflexivity.
Qed.

(* ================================================================= *)
(** ** Further properties: comparisons of scores *)

Section ScoreOrder.

Import FloatOrder.

Local Open Scope Z_scope.

Lemma SFcompare_keys (x y : spec_float) (a b : Z * Z * Z) :
  fkey x = Some a -> fkey y = Some b ->
  (SFcompare x y = Some Lt <-> key_lt a b)
  /\ (SFcompare x y = Some Eq \/ SFcompare x y = Some Lt <-> key_le a b).
Proof.
  destruct x as [sx|sx| |sx mx ex], y as [sy|sy| |sy my ey];
    try destruct sx; try destruct sy; simpl; try discriminate;
    intros [= <-] [= <-]; unfold key_lt, key_le;
    try change (Pos.compare_cont Eq mx my) with (Pos.compare mx my);
    try destruct (Z.compare_spec ex ey); try destruct (Pos.compare_spec mx my);
    simpl; (split; split; intros K; try (destruct K as [K|K]);
            try discriminate K; try lia; auto).
Qed.


Lemma fkey_none (x : spec_float) : fkey x = None -> x = S754_nan.
Proof. destruct x as [s|[]| |[] m e]; simpl; congruence. Qed.

Lemma ltb_flt (x y : float) : PrimFloat.ltb x y = true <-> flt x y.
Proof.
  rewrite FloatAxioms.ltb_spec. unfold SFltb, flt, key.
  destruct (fkey (Prim2SF x)) as [a|] eqn:Kx.
  - destruct (fkey (Prim2SF y)) as [b|] eqn:Ky.
    + destruct (SFcompare_keys _ _ a b Kx Ky) as [H _]. rewrite <- H.
      destruct (SFcompare (Prim2SF x) (Prim2SF y)) as [[]|]; split; congruence.
    + apply fkey_none in Ky. rewrite Ky.
      destruct (Prim2SF x); simpl; split; (discriminate || contradiction).
  - apply fkey_none in Kx. rewrite Kx. simpl. split; (discriminate || contradiction).
Qed.

Lemma leb_fle (x y : float) : PrimFloat.leb x y = true <-> fle x y.
Proof.
  rewrite FloatAxioms.leb_spec. unfold SFleb, fle, key.
  destruct (fkey (Prim2SF x)) as [a|] eqn:Kx.
  - destruct (fkey (Prim2SF y)) as [b|] eqn:Ky.
    + destruct (SFcompare_keys _ _ a b Kx Ky) as [_ H]. rewrite <- H.
      destruct (SFcompare (Prim2SF x) (Prim2SF y)) as [[]|]; split;
        intros K; try (destruct K as [K|K]); try discriminate K; auto.
    + apply fkey_none in Ky. rewrite Ky.
      destruct (Prim2SF x); simpl; split; (discriminate || contradiction).
  - apply fkey_none in Kx. rewrite Kx. simpl. split; (discriminate || contradiction).
Qed.

Lemma ltb_false_iff (x y : float) : PrimFloat.ltb x y = false <-> ~ flt x y.
Proof. rewrite <- ltb_flt. destruct (PrimFloat.ltb x y); split; congruence. Qed.

Lemma leb_false_iff (x y : float) : PrimFloat.leb x y = false <-> ~ fle x y.
Proof. rewrite <- leb_fle. destruct (PrimFloat.leb x y); split; congruence. Qed.

End ScoreOrder.

(** Comparisons of numbers, moved to their keys and decided there. *)
Ltac float_order :=
  repeat match goal with
         | H : PrimFloat.ltb _ _ = true |- _ => apply ltb_flt in H
         | H : PrimFloat.leb _ _ = true |- _ => apply leb_fle in H
         | H : PrimFloat.ltb _ _ = false |- _ => apply ltb_false_iff in H
         | H : PrimFloat.leb _ _ = false |- _ => apply leb_false_iff in H
         | |- PrimFloat.ltb _ _ = true => apply ltb_flt
         | |- PrimFloat.leb _ _ = true => apply leb_fle
         | |- PrimFloat.ltb _ _ = false => apply ltb_false_iff
         | |- PrimFloat.leb _ _ = false => apply leb_false_iff
         end;
  unfold FloatOrder.flt, FloatOrder.fle in *;
  repeat match goal with
         | H : context [FloatOrder.key ?x] |- _ =>
             destruct (FloatOrder.key x) as [[[? ?] ?]|]
         | |- context [FloatOrder.key ?x] =>
             destruct (FloatOrder.key x) as [[[? ?] ?]|]
         end;
  unfold FloatOrder.key_lt, FloatOrder.key_le in *;
  try contradiction; try discriminate; try lia; try tauto.

Section BestMatch.

Lemma threshold_key : FloatOrder.key threshold = Some (1, -53, 5404319552844595)%Z.
Proof. vm_compute. reflexivity. Qed.

Lemma zero_key : FloatOrder.key 0%float = Some (0, 0, 0)%Z.
Proof. vm_compute. reflexivity. Qed.

(** A score that reaches the threshold is above the initial best score. *)
Lemma accepted_above_zero (x : float) :
  PrimFloat.leb threshold x = true -> PrimFloat.ltb 0 x = true.
Proof.
  intros H. apply ltb_flt. apply leb_fle in H.
  unfold FloatOrder.flt, FloatOrder.fle in *.
  rewrite threshold_key in H. rewrite zero_key.
  destruct (FloatOrder.key x) as [[[c e] m]|]; [|contradiction].
  unfold FloatOrder.key_lt, FloatOrder.key_le in *. lia.
Qed.

Lemma ltb_irrefl (x : float) : PrimFloat.ltb x x = false.
Proof. float_order. Qed.

(** [x <= a < b] leaves [x] below [b]. *)
Lemma not_above_new_best (a b x : float) :
  PrimFloat.ltb a b = true -> PrimFloat.ltb a x = false -> PrimFloat.ltb b x = false.
Proof. intros H1 H2. float_order. Qed.

(** [x < T <= v] leaves [x] below [v]. *)
Lemma rejected_not_above (T v x : float) :
  PrimFloat.leb T v = true -> PrimFloat.leb T x = false -> PrimFloat.ltb v x = false.
Proof. intros H1 H2. float_order. Qed.

End BestMatch.

(* ================================================================= *)
(** ** Further properties: signs, lengths as doubles, and NaN *)

Section ScoresAreNumbers.

Import FloatOrder.

Local Open Scope Z_scope.

Lemma shr_fexp_nonneg (m e : Z) (l : location) :
  0 <= m -> 0 <= shr_m (fst (shr_fexp prec emax m e l)).
Proof.
  intros Hm. unfold shr_fexp, shr.
  destruct (fexp prec emax (Zdigits2 m + e) - e) as [|n|n]; simpl;
    rewrite ?shr_record_of_loc_m; try exact Hm.
  apply iter_shr_1_digits. now rewrite shr_record_of_loc_m.
Qed.

Lemma round_nearest_even_nonneg (m : Z) (l : location) :
  0 <= m -> 0 <= round_nearest_even m l.
Proof.
  intros Hm. destruct l as [|[]]; simpl; try lia.
  destruct (Z.even m); lia.
Qed.

(** Rounding a mantissa that is not negative gives a number, with the sign
    that was asked for. *)
Lemma binary_round_aux_signed (s : bool) (m e : Z) (l : location) :
  0 <= m -> signed s (binary_round_aux prec emax s m e l).
Proof.
  intros Hm. unfold binary_round_aux.
  pose proof (shr_fexp_nonneg m e l Hm) as H1.
  destruct (shr_fexp prec emax m e l) as [mrs' e']. simpl in H1.
  pose proof (round_nearest_even_nonneg (shr_m mrs') (loc_of_shr_record mrs') H1) as H2.
  pose proof (shr_fexp_nonneg _ e' loc_Exact H2) as H3.
  destruct (shr_fexp prec emax _ e' loc_Exact) as [mrs'' e'']. simpl in H3.
  destruct (shr_m mrs'') as [|p|p]; try lia; [reflexivity|].
  destruct (e'' <=? emax - prec); reflexivity.
Qed.

Lemma binary_round_signed (s : bool) (p : positive) (e : Z) :
  signed s (binary_round prec emax s p e).
Proof.
  unfold binary_round. destruct (shl_align p e _) as [mz ez].
  apply binary_round_aux_signed. lia.
Qed.

(** *** The four operations of [calculate_similarity] *)

Lemma SFdiv_nonneg (x y : spec_float) :
  finite_nonneg x -> positive_result y -> signed false (SFdiv prec emax x y).
Proof.
  destruct x as [[]|[]| |[] mx ex], y as [sy|sy| |sy my ey]; simpl;
    try contradiction; intros _ Hy; subst; try reflexivity.
  unfold SFdiv_core_binary.
  match goal with
  | |- context [Z.div_eucl ?a ?b] =>
      pose proof (Z.div_pos a b) as Hq; unfold Z.div in Hq;
      destruct (Z.div_eucl a b) as [q r]
  end.
  apply binary_round_aux_signed. apply Hq; [|lia].
  destruct (ex - ey - _) as [|k|k]; try lia.
  apply Z.shiftl_nonneg. lia.
Qed.

Lemma SFmul_nonneg (x y : spec_float) :
  signed false x -> (exists m e, y = S754_finite false m e) ->
  signed false (SFmul prec emax x y).
Proof.
  intros Hx [m [e ->]]. destruct x as [sx|sx| |sx mx ex]; simpl in *;
    try contradiction; subst; try reflexivity.
  apply binary_round_aux_signed. lia.
Qed.

(** *** Lengths as doubles *)

Lemma digits2_pos_iter (d : positive) :
  forall p, Z.pos (digits2_pos (Pos.iter xO p d))
            = Z.pos (digits2_pos p) + Z.pos d.
Proof.
  induction d as [d IH|d IH|]; intros p; cbn [Pos.iter digits2_pos].
  - rewrite Pos2Z.inj_succ, !IH. lia.
  - rewrite !IH. lia.
  - rewrite Pos2Z.inj_succ. lia.
Qed.

Lemma digits2_pos_bound (p : positive) :
  forall k, 0 <= k -> Z.pos p < 2 ^ k -> Z.pos (digits2_pos p) <= k.
Proof.
  induction p as [p IH|p IH|]; intros k Hk Hp; cbn [digits2_pos].
  - assert (k <> 0) by (intros ->; simpl in Hp; lia).
    replace k with (Z.succ (k - 1)) in Hp by lia.
    rewrite Z.pow_succ_r in Hp by lia.
    rewrite Pos2Z.inj_succ. specialize (IH (k - 1)). lia.
  - assert (k <> 0) by (intros ->; simpl in Hp; lia).
    replace k with (Z.succ (k - 1)) in Hp by lia.
    rewrite Z.pow_succ_r in Hp by lia.
    rewrite Pos2Z.inj_succ. specialize (IH (k - 1)). lia.
  - assert (k <> 0) by (intros ->; simpl in Hp; lia). lia.
Qed.

(** A mantissa that already has the exponent of its format is kept. *)
Lemma binary_round_aux_exact (s : bool) (m : positive) (e : Z) :
  fexp prec emax (Z.pos (digits2_pos m) + e) = e -> e <= emax - prec ->
  binary_round_aux prec emax s (Z.pos m) e loc_Exact = S754_finite s m e.
Proof.
  intros Hf He. unfold binary_round_aux, shr_fexp. cbn [Zdigits2 shr_record_of_loc].
  rewrite Hf, Z.sub_diag. cbn [shr shr_m loc_of_shr_record round_nearest_even Zdigits2].
  rewrite Hf, Z.sub_diag. cbn [shr shr_m].
  apply Z.leb_le in He. now rewrite He.
Qed.

(** An integer below 2^53 is a double. *)
Lemma binary_round_small (p : positive) :
  Z.pos p < 2 ^ 53 ->
  exists m e, binary_round prec emax false p 0 = S754_finite false m e.
Proof.
  intros Hp. pose proof (digits2_pos_bound p 53 ltac:(lia) Hp) as Hd.
  unfold binary_round, shl_align.
  assert (Hf : fexp prec emax (Z.pos (digits2_pos p) + 0) = Z.pos (digits2_pos p) - 53)
    by (unfold fexp, SpecFloat.emin, prec, emax; lia).
  rewrite Hf.
  destruct (Z.pos (digits2_pos p) - 53 - 0) as [|k|k] eqn:K; try lia.
  - eexists _, _. apply binary_round_aux_exact.
    + unfold fexp, SpecFloat.emin, prec, emax. lia.
    + unfold prec, emax. lia.
  - eexists _, _. apply binary_round_aux_exact.
    + rewrite digits2_pos_iter. unfold fexp, SpecFloat.emin, prec, emax. lia.
    + unfold prec, emax. lia.
Qed.

Lemma of_nat_spec (n : nat) :
  Z.of_nat n <= JsNumber.max_string_length ->
  Prim2SF (JsNumber.of_nat n) = binary_normalize prec emax (Z.of_nat n) 0 false.
Proof.
  intros H. unfold JsNumber.of_nat. now rewrite of_uint63_spec, of_nat_to_Z.
Qed.

Lemma of_nat_finite (n : nat) :
  (0 < n)%nat -> Z.of_nat n <= JsNumber.max_string_length ->
  exists m e, Prim2SF (JsNumber.of_nat n) = S754_finite false m e.
Proof.
  intros Hn H. rewrite of_nat_spec by exact H.
  destruct (Z.of_nat n) as [|p|p] eqn:E; try lia.
  apply binary_round_small. unfold JsNumber.max_string_length in H. lia.
Qed.

Lemma of_nat_finite_nonneg (n : nat) :
  Z.of_nat n <= JsNumber.max_string_length ->
  finite_nonneg (Prim2SF (JsNumber.of_nat n)).
Proof.
  intros H. destruct n as [|n]; [exact I|].
  destruct (of_nat_finite (S n)) as [m [e ->]]; [lia | exact H | exact I].
Qed.

Lemma of_nat_positive (n : nat) :
  (0 < n)%nat -> Z.of_nat n <= JsNumber.max_string_length ->
  positive_result (Prim2SF (JsNumber.of_nat n)).
Proof.
  intros Hn H. now destruct (of_nat_finite n Hn H) as [m [e ->]].
Qed.

(** *** Numbers and their comparisons *)

Lemma is_nan_false (x : float) : is_number (Prim2SF x) -> PrimFloat.is_nan x = false.
Proof.
  intros H. unfold PrimFloat.is_nan. rewrite FloatAxioms.eqb_spec. unfold SFeqb.
  destruct (fkey (Prim2SF x)) as [a|] eqn:K;
    [|apply fkey_none in K; contradiction].
  destruct (SFcompare_keys _ _ a a K K) as [H1 H2].
  assert (L : key_le a a) by (destruct a as [[c e] m]; unfold key_le; lia).
  assert (N : ~ key_lt a a) by (destruct a as [[c e] m]; unfold key_lt; lia).
  apply H2 in L. destruct L as [L|L]; [now rewrite L | now apply H1 in L].
Qed.

Lemma is_nan_key (x : float) :
  PrimFloat.is_nan x = false -> exists k, key x = Some k.
Proof.
  unfold PrimFloat.is_nan, key. rewrite FloatAxioms.eqb_spec. unfold SFeqb.
  destruct (Prim2SF x) as [s|s| |s m e]; try destruct s; simpl;
    try discriminate; eauto.
Qed.

(** Among numbers, "not above" is "at most". *)
Lemma not_above_at_most (x y : float) :
  PrimFloat.is_nan x = false -> PrimFloat.is_nan y = false ->
  PrimFloat.ltb x y = false -> PrimFloat.leb y x = true.
Proof.
  intros Hx Hy H. apply is_nan_key in Hx as [[[c e] m] Kx].
  apply is_nan_key in Hy as [[[c' e'] m'] Ky].
  apply leb_fle. apply ltb_false_iff in H. unfold flt, fle in *.
  rewrite Kx, Ky in *. unfold key_lt, key_le in *. lia.
Qed.

End ScoresAreNumbers.

Lemma different_names_longer (name1 name2 : jsstring) :
  str_eqb name1 name2 = false -> 0 < Nat.max (length name1) (length name2).
Proof.
  intros E. destruct name1, name2; simpl; try lia. discriminate.
Qed.

(* ================================================================= *)
(** ** Further properties: rounding stays on the side of a double *)

Section Digits.

Local Open Scope Z_scope.

Lemma digits2_pos_spec (p : positive) :
  2 ^ (Z.pos (digits2_pos p) - 1) <= Z.pos p < 2 ^ Z.pos (digits2_pos p).
Proof.
  induction p as [p IH|p IH|]; cbn [digits2_pos]; [| |simpl; lia].
  - rewrite Pos2Z.inj_succ. change (Z.pos p~1) with (2 * Z.pos p + 1).
    replace (Z.succ (Z.pos (digits2_pos p)) - 1)
      with (Z.succ (Z.pos (digits2_pos p) - 1)) by lia.
    rewrite !Z.pow_succ_r by lia. lia.
  - rewrite Pos2Z.inj_succ. change (Z.pos p~0) with (2 * Z.pos p).
    replace (Z.succ (Z.pos (digits2_pos p)) - 1)
      with (Z.succ (Z.pos (digits2_pos p) - 1)) by lia.
    rewrite !Z.pow_succ_r by lia. lia.
Qed.

Lemma digits_above (p : positive) (k : Z) :
  0 <= k -> 2 ^ k <= Z.pos p -> k < Z.pos (digits2_pos p).
Proof.
  intros Hk H. pose proof (digits2_pos_spec p) as [_ Hp].
  apply (Z.pow_lt_mono_r_iff 2); lia.
Qed.

Lemma Zdigits2_below (m k : Z) : 0 <= m -> 0 <= k -> m < 2 ^ k -> Zdigits2 m <= k.
Proof.
  intros Hm Hk H. destruct m as [|p|p]; simpl; try lia.
  now apply digits2_pos_bound.
Qed.

Lemma Zdigits2_small (m k : Z) : 0 <= m -> 0 <= k -> Zdigits2 m <= k -> m < 2 ^ k.
Proof.
  intros Hm Hk H. destruct m as [|p|p]; simpl in *; try lia.
  pose proof (digits2_pos_spec p) as [_ Hp].
  pose proof (Z.pow_le_mono_r 2 _ k ltac:(lia) H). lia.
Qed.

Lemma pow2_split (k : Z) : 1 <= k -> 2 ^ k = 2 * 2 ^ (k - 1).
Proof.
  intros Hk. replace k with (Z.succ (k - 1)) at 1 by lia.
  apply Z.pow_succ_r. lia.
Qed.

Lemma pos_iter_xO (d : positive) (p : positive) :
  Z.pos (Pos.iter xO p d) = Z.pos p * 2 ^ Z.pos d.
Proof.
  revert p. induction d as [|d IH] using Pos.peano_ind; intros p.
  - simpl. lia.
  - rewrite Pos.iter_succ. change (Z.pos (Pos.iter xO p d)~0) with (2 * Z.pos (Pos.iter xO p d)).
    rewrite IH, Pos2Z.inj_succ, Z.pow_succ_r by lia. lia.
Qed.

Lemma shl_align_spec (p : positive) (e e' : Z) :
  snd (shl_align p e e') <= e
  /\ Z.pos (fst (shl_align p e e')) = Z.pos p * 2 ^ (e - snd (shl_align p e e')).
Proof.
  unfold shl_align. destruct (e' - e) as [|d|d] eqn:D; cbn [fst snd].
  - rewrite Z.sub_diag. simpl. lia.
  - rewrite Z.sub_diag. simpl. lia.
  - rewrite pos_iter_xO. replace (e - e') with (Z.pos d) by lia. lia.
Qed.

Lemma loc_of_shr_record_of_loc (m : Z) (l : location) :
  loc_of_shr_record (shr_record_of_loc m l) = l.
Proof. destruct l as [|[]]; reflexivity. Qed.

Lemma round_nearest_even_range (r : shr_record) :
  shr_m r <= round_nearest_even (shr_m r) (loc_of_shr_record r)
          <= shr_m r + Z.b2z (shr_r r).
Proof.
  destruct r as [m [] []]; cbn [shr_m shr_r loc_of_shr_record round_nearest_even Z.b2z];
    try destruct (Z.even m); lia.
Qed.

(** After rounding, the second alignment has at most one digit to drop. *)
Lemma round_again (R e : Z) :
  0 <= R <= 9007199254740992 -> emin <= e ->
  shr_fexp prec emax R e loc_Exact
  = if R =? 9007199254740992
    then ({| shr_m := 4503599627370496; shr_r := false; shr_s := false |}, e + 1)
    else ({| shr_m := R; shr_r := false; shr_s := false |}, e).
Proof.
  intros HR He. destruct (R =? 9007199254740992) eqn:Q.
  - apply Z.eqb_eq in Q. subst R. unfold shr_fexp.
    change (Zdigits2 9007199254740992) with 54.
    replace (fexp prec emax (54 + e) - e) with 1
      by (unfold fexp, SpecFloat.emin, prec, emax in *; lia).
    reflexivity.
  - apply Z.eqb_neq in Q. unfold shr_fexp.
    assert (Hd : Zdigits2 R <= 53) by (apply Zdigits2_below; lia).
    cbn [shr_record_of_loc].
    destruct (fexp prec emax (Zdigits2 R + e) - e) as [|n|n] eqn:N; try reflexivity.
    unfold fexp, SpecFloat.emin, prec, emax in *. lia.
Qed.

End Digits.

Section RoundingBelow.

Import FloatOrder.

Local Open Scope Z_scope.

(** The double [mb * 2^eb] that bounds from above. *)
Variable mb : positive.
Variable eb : Z.
Hypothesis canonical : fexp prec emax (Z.pos (digits2_pos mb) + eb) = eb.
Hypothesis in_range : eb <= emax - prec.

Lemma shr_1_below (r : shr_record) (c k : Z) :
  0 <= shr_m r -> 1 <= k ->
  2 * shr_m r + Z.b2z (shr_r r) < c * 2 ^ k ->
  0 <= shr_m (shr_1 r)
  /\ 2 * shr_m (shr_1 r) + Z.b2z (shr_r (shr_1 r)) < c * 2 ^ (k - 1).
Proof.
  intros Hm Hk H. rewrite (pow2_split k Hk) in H.
  destruct r as [m rb sb]. cbn [shr_m shr_r] in *.
  destruct m as [|[p|p|]|p]; cbn [shr_1 shr_m shr_r Z.b2z];
    destruct rb; cbn [Z.b2z] in H; lia.
Qed.

Lemma iter_shr_1_below (n : positive) (c : Z) :
  forall (r : shr_record) (k : Z),
  0 <= shr_m r -> Z.pos n <= k ->
  2 * shr_m r + Z.b2z (shr_r r) < c * 2 ^ k ->
  0 <= shr_m (iter_pos shr_1 n r)
  /\ 2 * shr_m (iter_pos shr_1 n r) + Z.b2z (shr_r (iter_pos shr_1 n r))
     < c * 2 ^ (k - Z.pos n).
Proof.
  induction n as [n IH|n IH|]; intros r k Hm Hk H; cbn [iter_pos].
  - destruct (shr_1_below r c k Hm ltac:(lia) H) as [H1 B1].
    destruct (IH _ (k - 1) H1 ltac:(lia) B1) as [H2 B2].
    destruct (IH _ (k - 1 - Z.pos n) H2 ltac:(lia) B2) as [H3 B3].
    split; [exact H3|].
    replace (k - Z.pos n~1) with (k - 1 - Z.pos n - Z.pos n) by lia. exact B3.
  - destruct (IH _ k Hm ltac:(lia) H) as [H2 B2].
    destruct (IH _ (k - Z.pos n) H2 ltac:(lia) B2) as [H3 B3].
    split; [exact H3|].
    replace (k - Z.pos n~0) with (k - Z.pos n - Z.pos n) by lia. exact B3.
  - now apply shr_1_below.
Qed.

Lemma bound_digits : Z.pos (digits2_pos mb) <= 53 /\ emin <= eb /\ Z.pos mb < 2 ^ 53.
Proof.
  assert (H : Z.pos (digits2_pos mb) <= 53 /\ emin <= eb)
    by (unfold fexp, SpecFloat.emin, prec, emax in *; lia).
  split; [apply H|]. split; [apply H|].
  apply (Zdigits2_small (Z.pos mb) 53); simpl; lia.
Qed.

(** The first alignment and the rounding, on a value below the middle of
    the bound and its successor. *)
Lemma shr_fexp_below (m e : Z) (l : location) :
  0 <= m -> e <= eb -> l = loc_Exact \/ e < eb ->
  2 * m < (2 * Z.pos mb + 1) * 2 ^ (eb - e) ->
  let rounded := round_nearest_even (shr_m (fst (shr_fexp prec emax m e l)))
                   (loc_of_shr_record (fst (shr_fexp prec emax m e l))) in
  let e1 := snd (shr_fexp prec emax m e l) in
  emin <= e1 <= eb /\ 0 <= rounded <= 2 ^ 53 /\ (e1 = eb -> rounded <= Z.pos mb).
Proof.
  intros Hm He Hl H. cbv zeta.
  destruct bound_digits as (Hdb & Hemin & Hmb).
  assert (Hf : fexp prec emax (Zdigits2 m + e) <= eb).
  { destruct m as [|p|p]; try lia.
    - unfold fexp, SpecFloat.emin, prec, emax in *. simpl. lia.
    - assert (Hp : Z.pos p < 2 ^ (Z.pos (digits2_pos mb) + (eb - e))).
      { rewrite Z.pow_add_r by lia.
        pose proof (digits2_pos_spec mb) as [_ Hb].
        assert (0 < 2 ^ (eb - e)) by (apply Z.pow_pos_nonneg; lia). nia. }
      apply digits2_pos_bound in Hp; [|lia].
      cbn [Zdigits2]. unfold fexp, SpecFloat.emin, prec, emax in *. lia. }
  unfold shr_fexp, shr.
  destruct (fexp prec emax (Zdigits2 m + e) - e) as [|n|n] eqn:N; cbn [fst snd].
  - rewrite loc_of_shr_record_of_loc, shr_record_of_loc_m.
    assert (Hd : Zdigits2 m <= 53) by (unfold fexp, SpecFloat.emin, prec, emax in *; lia).
    apply Zdigits2_small in Hd; try lia.
    pose proof (round_nearest_even_range (shr_record_of_loc m l)) as HR.
    rewrite loc_of_shr_record_of_loc, shr_record_of_loc_m in HR.
    assert (Z.b2z (shr_r (shr_record_of_loc m l)) <= 1)
      by (destruct (shr_r _); simpl; lia).
    split; [unfold fexp, SpecFloat.emin, prec, emax in *; lia|].
    split; [lia|]. intros E. destruct Hl as [-> |Hl]; [|lia].
    cbn [round_nearest_even]. rewrite E, Z.sub_diag, Z.pow_0_r in H. lia.
  - set (r := iter_pos shr_1 n (shr_record_of_loc m l)).
    destruct (iter_shr_1_digits n (shr_record_of_loc m l)) as [Hr Hdr];
      [now rewrite shr_record_of_loc_m|].
    rewrite shr_record_of_loc_m in Hdr. fold r in Hr, Hdr.
    assert (Hd : Zdigits2 (shr_m r) <= 53)
      by (unfold fexp, SpecFloat.emin, prec, emax in *; lia).
    apply Zdigits2_small in Hd; try lia.
    pose proof (round_nearest_even_range r) as HR.
    assert (Z.b2z (shr_r r) <= 1) by (destruct (shr_r r); simpl; lia).
    split; [unfold fexp, SpecFloat.emin, prec, emax in *; lia|].
    split; [lia|]. intros E.
    destruct (iter_shr_1_below n (2 * Z.pos mb + 1) (shr_record_of_loc m l) (eb - e))
      as [_ B]; [now rewrite shr_record_of_loc_m | lia | |].
    + rewrite shr_record_of_loc_m.
      destruct Hl as [-> |Hl]; [cbn [shr_record_of_loc shr_r Z.b2z]; lia|].
      rewrite (pow2_split (eb - e)) in * by lia.
      assert (Z.b2z (shr_r (shr_record_of_loc m l)) <= 1)
        by (destruct l as [|[]]; simpl; lia).
      lia.
    + fold r in B. replace (eb - e - Z.pos n) with 0 in B by lia. rewrite Z.pow_0_r in B. lia.
  - rewrite loc_of_shr_record_of_loc, shr_record_of_loc_m.
    assert (Hd : Zdigits2 m <= 53) by (unfold fexp, SpecFloat.emin, prec, emax in *; lia).
    apply Zdigits2_small in Hd; try lia.
    pose proof (round_nearest_even_range (shr_record_of_loc m l)) as HR.
    rewrite loc_of_shr_record_of_loc, shr_record_of_loc_m in HR.
    assert (Z.b2z (shr_r (shr_record_of_loc m l)) <= 1)
      by (destruct (shr_r _); simpl; lia).
    split; [unfold fexp, SpecFloat.emin, prec, emax in *; lia|].
    split; [lia|]. intros E. destruct Hl as [-> |Hl]; [|lia].
    cbn [round_nearest_even]. rewrite E, Z.sub_diag, Z.pow_0_r in H. lia.
Qed.

(** Rounding a value below the middle of [mb * 2^eb] and its successor gives
    at most [mb * 2^eb]. *)
Lemma binary_round_aux_at_most (m e : Z) (l : location) :
  0 <= m -> e <= eb -> l = loc_Exact \/ e < eb ->
  2 * m < (2 * Z.pos mb + 1) * 2 ^ (eb - e) ->
  at_most (binary_round_aux prec emax false m e l) (1, eb, Z.pos mb).
Proof.
  intros Hm He Hl H.
  pose proof (shr_fexp_below m e l Hm He Hl H) as B. cbv zeta in B.
  destruct bound_digits as (Hdb & Hemin & Hmb).
  unfold binary_round_aux.
  destruct (shr_fexp prec emax m e l) as [r e1]. cbn [fst snd] in B.
  destruct B as (He1 & HR & Hlast).
  change (2 ^ 53) with 9007199254740992 in *.
  rewrite round_again by lia.
  destruct (round_nearest_even (shr_m r) (loc_of_shr_record r) =? 9007199254740992)
    eqn:Q.
  - apply Z.eqb_eq in Q. cbn [shr_m].
    assert (e1 < eb) by lia.
    replace (e1 + 1 <=? emax - prec) with true by (symmetry; apply Z.leb_le; lia).
    unfold at_most, fkey, key_le. right. split; [reflexivity|].
    destruct (Z.eq_dec (e1 + 1) eb) as [E|E]; [right | left; lia].
    split; [exact E|].
    assert (Hd : Z.pos (digits2_pos mb) = 53)
      by (unfold fexp, SpecFloat.emin, prec, emax in *; lia).
    pose proof (digits2_pos_spec mb) as [Hlow _]. rewrite Hd in Hlow.
    change (2 ^ (53 - 1)) with 4503599627370496 in Hlow. exact Hlow.
  - cbn [shr_m].
    destruct (round_nearest_even (shr_m r) (loc_of_shr_record r)) as [|p|p] eqn:R;
      try lia.
    + unfold at_most, fkey, key_le. lia.
    + replace (e1 <=? emax - prec) with true by (symmetry; apply Z.leb_le; lia).
      unfold at_most, fkey, key_le. lia.
Qed.

Lemma binary_round_at_most (p : positive) (e : Z) :
  e <= eb -> 2 * Z.pos p < (2 * Z.pos mb + 1) * 2 ^ (eb - e) ->
  at_most (binary_round prec emax false p e) (1, eb, Z.pos mb).
Proof.
  intros He H. unfold binary_round.
  pose proof (shl_align_spec p e (fexp prec emax (Z.pos (digits2_pos p) + e)))
    as [Hz Hv].
  destruct (shl_align p e _) as [mz ez]. cbn [fst snd] in Hz, Hv.
  apply binary_round_aux_at_most; try lia; [now left|].
  rewrite Hv. replace (eb - ez) with ((eb - e) + (e - ez)) by lia.
  rewrite Z.pow_add_r by lia.
  assert (0 < 2 ^ (e - ez)) by (apply Z.pow_pos_nonneg; lia). nia.
Qed.

End RoundingBelow.

Section RoundingAbove.

Import FloatOrder.

Local Open Scope Z_scope.

(** The double [mb * 2^eb] that bounds from below. *)
Variable mb : positive.
Variable eb : Z.
Hypothesis canonical : fexp prec emax (Z.pos (digits2_pos mb) + eb) = eb.

Lemma shr_1_above (r : shr_record) (c k : Z) :
  0 <= shr_m r -> 1 <= k -> c * 2 ^ k <= shr_m r -> c * 2 ^ (k - 1) <= shr_m (shr_1 r).
Proof.
  intros Hm Hk H. rewrite (pow2_split k Hk) in H.
  destruct r as [m rb sb]. cbn [shr_m] in *.
  destruct m as [|[p|p|]|p]; cbn [shr_1 shr_m]; lia.
Qed.

Lemma iter_shr_1_above (n : positive) (c : Z) :
  forall (r : shr_record) (k : Z),
  0 <= shr_m r -> Z.pos n <= k -> c * 2 ^ k <= shr_m r ->
  c * 2 ^ (k - Z.pos n) <= shr_m (iter_pos shr_1 n r).
Proof.
  induction n as [n IH|n IH|]; intros r k Hm Hk H; cbn [iter_pos].
  - pose proof (shr_1_above r c k Hm ltac:(lia) H) as B1.
    destruct (shr_1_digits r Hm) as [H1 _].
    pose proof (IH _ (k - 1) H1 ltac:(lia) B1) as B2.
    destruct (iter_shr_1_digits n _ H1) as [H2 _].
    pose proof (IH _ (k - 1 - Z.pos n) H2 ltac:(lia) B2) as B3.
    replace (k - Z.pos n~1) with (k - 1 - Z.pos n - Z.pos n) by lia. exact B3.
  - pose proof (IH _ k Hm ltac:(lia) H) as B2.
    destruct (iter_shr_1_digits n _ Hm) as [H2 _].
    pose proof (IH _ (k - Z.pos n) H2 ltac:(lia) B2) as B3.
    replace (k - Z.pos n~0) with (k - Z.pos n - Z.pos n) by lia. exact B3.
  - now apply shr_1_above.
Qed.

(** The first alignment and the rounding, on a value that is at least the
    bound. *)
Lemma shr_fexp_above (m e : Z) (l : location) :
  e <= eb -> Z.pos mb * 2 ^ (eb - e) <= m ->
  let rounded := round_nearest_even (shr_m (fst (shr_fexp prec emax m e l)))
                   (loc_of_shr_record (fst (shr_fexp prec emax m e l))) in
  let e1 := snd (shr_fexp prec emax m e l) in
  eb <= e1 /\ emin <= e1 /\ 0 < rounded <= 2 ^ 53 /\ (e1 = eb -> Z.pos mb <= rounded).
Proof.
  intros He H. cbv zeta.
  assert (Hpow : 0 < 2 ^ (eb - e)) by (apply Z.pow_pos_nonneg; lia).
  assert (Hm : 0 < m) by nia.
  assert (Hemin : emin <= eb)
    by (unfold fexp, SpecFloat.emin, prec, emax in *; lia).
  assert (Hd : Z.pos (digits2_pos mb) + eb <= Zdigits2 m + e).
  { destruct m as [|p|p]; try lia. cbn [Zdigits2].
    pose proof (digits2_pos_spec mb) as [Hb _].
    assert (Hp : 2 ^ (Z.pos (digits2_pos mb) - 1 + (eb - e)) <= Z.pos p).
    { rewrite Z.pow_add_r by lia. nia. }
    apply digits_above in Hp; lia. }
  assert (Hf : eb <= fexp prec emax (Zdigits2 m + e))
    by (unfold fexp, SpecFloat.emin, prec, emax in *; lia).
  unfold shr_fexp, shr.
  destruct (fexp prec emax (Zdigits2 m + e) - e) as [|n|n] eqn:N; cbn [fst snd];
    try lia.
  - rewrite loc_of_shr_record_of_loc, shr_record_of_loc_m.
    assert (Hs : Zdigits2 m <= 53) by (unfold fexp, SpecFloat.emin, prec, emax in *; lia).
    apply Zdigits2_small in Hs; try lia.
    pose proof (round_nearest_even_range (shr_record_of_loc m l)) as HR.
    rewrite loc_of_shr_record_of_loc, shr_record_of_loc_m in HR.
    assert (Z.b2z (shr_r (shr_record_of_loc m l)) <= 1)
      by (destruct l as [|[]]; simpl; lia).
    replace (eb - e) with 0 in H by lia. rewrite Z.pow_0_r in H.
    repeat split; lia.
  - set (r := iter_pos shr_1 n (shr_record_of_loc m l)).
    destruct (iter_shr_1_digits n (shr_record_of_loc m l)) as [Hr Hdr];
      [rewrite shr_record_of_loc_m; lia|].
    rewrite shr_record_of_loc_m in Hdr. fold r in Hr, Hdr.
    assert (Hs : Zdigits2 (shr_m r) <= 53)
      by (unfold fexp, SpecFloat.emin, prec, emax in *; lia).
    assert (Hpos : 0 < shr_m r).
    { apply Zdigits2_zero; [exact Hr|].
      unfold fexp, SpecFloat.emin, prec, emax in *. lia. }
    apply Zdigits2_small in Hs; try lia.
    pose proof (round_nearest_even_range r) as HR.
    assert (Z.b2z (shr_r r) <= 1) by (destruct (shr_r r); simpl; lia).
    split; [lia|]. split; [lia|]. split; [lia|]. intros E.
    pose proof (iter_shr_1_above n (Z.pos mb) (shr_record_of_loc m l) (eb - e)) as B.
    rewrite shr_record_of_loc_m in B. fold r in B.
    replace (eb - e - Z.pos n) with 0 in B by lia. rewrite Z.pow_0_r in B.
    specialize (B ltac:(lia) ltac:(lia) H). lia.
Qed.

(** Rounding a value that is at least [mb * 2^eb] gives at least
    [mb * 2^eb]. *)
Lemma binary_round_aux_at_least (m e : Z) (l : location) :
  e <= eb -> Z.pos mb * 2 ^ (eb - e) <= m ->
  at_least (binary_round_aux prec emax false m e l) (1, eb, Z.pos mb).
Proof.
  intros He H.
  pose proof (shr_fexp_above m e l He H) as B. cbv zeta in B.
  unfold binary_round_aux.
  destruct (shr_fexp prec emax m e l) as [r e1]. cbn [fst snd] in B.
  destruct B as (He1 & Hemin & HR & Hlast).
  change (2 ^ 53) with 9007199254740992 in *.
  rewrite round_again by lia.
  destruct (round_nearest_even (shr_m r) (loc_of_shr_record r) =? 9007199254740992)
    eqn:Q.
  - cbn [shr_m]. destruct (e1 + 1 <=? emax - prec);
      unfold at_least, fkey, key_le; lia.
  - cbn [shr_m].
    destruct (round_nearest_even (shr_m r) (loc_of_shr_record r)) as [|p|p] eqn:R;
      try lia.
    destruct (e1 <=? emax - prec); unfold at_least, fkey, key_le; lia.
Qed.

Lemma binary_round_at_least (p : positive) (e : Z) :
  e <= eb -> Z.pos mb * 2 ^ (eb - e) <= Z.pos p ->
  at_least (binary_round prec emax false p e) (1, eb, Z.pos mb).
Proof.
  intros He H. unfold binary_round.
  pose proof (shl_align_spec p e (fexp prec emax (Z.pos (digits2_pos p) + e)))
    as [Hz Hv].
  destruct (shl_align p e _) as [mz ez]. cbn [fst snd] in Hz, Hv.
  apply binary_round_aux_at_least; try lia.
  rewrite Hv. replace (eb - ez) with ((eb - e) + (e - ez)) by lia.
  rewrite Z.pow_add_r by lia.
  assert (0 < 2 ^ (e - ez)) by (apply Z.pow_pos_nonneg; lia). nia.
Qed.

End RoundingAbove.

(* ================================================================= *)
(** ** Further properties: the range of a score *)

Section ScoreRange.

Import FloatOrder.

Local Open Scope Z_scope.

(** The keys of 1, 0.8 and 0.2. *)
Local Abbreviation one_key := (1, -52, 4503599627370496).
Local Abbreviation fifths := 7205759403792794%positive.

Lemma valid_finite (m : positive) (e : Z) :
  bounded prec emax m e = true ->
  fexp prec emax (Z.pos (digits2_pos m) + e) = e /\ e <= emax - prec
  /\ Z.pos m < 2 ^ 53.
Proof.
  unfold bounded, canonical_mantissa. rewrite andb_true_iff, Z.eqb_eq, Z.leb_le.
  intros [H1 H2]. split; [exact H1|]. split; [exact H2|].
  apply (Zdigits2_small (Z.pos m) 53); try lia.
  cbn [Zdigits2]. unfold fexp, SpecFloat.emin, prec, emax in *. lia.
Qed.

(** A double that is at most 1, as a bound on its mantissa. *)
Lemma at_most_one_value (m : positive) (e : Z) :
  bounded prec emax m e = true -> key_le (1, e, Z.pos m) one_key ->
  e <= -52 /\ Z.pos m <= 2 ^ (- e).
Proof.
  intros Hv H. apply valid_finite in Hv as (_ & _ & Hm). unfold key_le in H.
  destruct (Z.eq_dec e (-52)) as [-> |E].
  - change (2 ^ (- -52)) with 4503599627370496. lia.
  - split; [lia|].
    pose proof (Z.pow_le_mono_r 2 53 (- e) ltac:(lia) ltac:(lia)). lia.
Qed.

Lemma shl_align_down (p : positive) (e e' : Z) :
  e' <= e ->
  snd (shl_align p e e') = e'
  /\ Z.pos (fst (shl_align p e e')) = Z.pos p * 2 ^ (e - e').
Proof.
  intros H. unfold shl_align. destruct (e' - e) as [|d|d] eqn:D; cbn [fst snd];
    try lia.
  - replace (e - e') with 0 by lia. rewrite Z.pow_0_r. lia.
  - rewrite pos_iter_xO. replace (e - e') with (Z.pos d) by lia. lia.
Qed.

(** *** Lengths as doubles, with their mantissa *)

Lemma of_nat_repr (n : nat) :
  (0 < n)%nat -> Z.of_nat n <= JsNumber.max_string_length ->
  exists m e,
    Prim2SF (JsNumber.of_nat n) = S754_finite false m e
    /\ e <= 0 /\ Z.pos m = Z.of_nat n * 2 ^ (- e) /\ Z.pos (digits2_pos m) = 53.
Proof.
  intros Hn H. rewrite of_nat_spec by exact H.
  unfold JsNumber.max_string_length in H.
  destruct (Z.of_nat n) as [|p|p] eqn:E; try lia.
  pose proof (digits2_pos_bound p 53 ltac:(lia) ltac:(lia)) as Hd.
  unfold binary_normalize, binary_round, shl_align.
  assert (Hf : fexp prec emax (Z.pos (digits2_pos p) + 0) = Z.pos (digits2_pos p) - 53)
    by (unfold fexp, SpecFloat.emin, prec, emax; lia).
  rewrite Hf.
  destruct (Z.pos (digits2_pos p) - 53 - 0) as [|k|k] eqn:K; try lia.
  - exists p, 0. rewrite binary_round_aux_exact.
    + repeat split; try lia.
    + unfold fexp, SpecFloat.emin, prec, emax. lia.
    + unfold prec, emax. lia.
  - exists (Pos.iter xO p k), (Z.pos (digits2_pos p) - 53).
    rewrite binary_round_aux_exact.
    + rewrite digits2_pos_iter, pos_iter_xO.
      replace (- (Z.pos (digits2_pos p) - 53)) with (Z.pos k) by lia.
      repeat split; lia.
    + rewrite digits2_pos_iter. unfold fexp, SpecFloat.emin, prec, emax. lia.
    + unfold prec, emax. lia.
Qed.

(** *** The quotient of two lengths *)

Lemma div_of_nat_at_most_one (a b : nat) :
  (a <= b)%nat -> (0 < b)%nat -> Z.of_nat b <= JsNumber.max_string_length ->
  at_most (SFdiv prec emax (Prim2SF (JsNumber.of_nat a)) (Prim2SF (JsNumber.of_nat b)))
          one_key.
Proof.
  intros Hab Hb Hmax.
  destruct (of_nat_repr b Hb Hmax) as (m2 & e2 & -> & He2 & Hm2 & Hd2).
  destruct a as [|a].
  { change (Prim2SF (JsNumber.of_nat 0)) with (S754_zero false).
    unfold at_most, SFdiv, fkey, key_le. cbn [xorb]. lia. }
  destruct (of_nat_repr (S a) ltac:(lia) ltac:(lia)) as (m1 & e1 & -> & He1 & Hm1 & Hd1).
  pose proof (digits2_pos_spec m1) as [L1 U1]. rewrite Hd1 in L1, U1.
  pose proof (digits2_pos_spec m2) as [L2 U2]. rewrite Hd2 in L2, U2.
  change (2 ^ (53 - 1)) with 4503599627370496 in *.
  change (2 ^ 53) with 9007199254740992 in *.
  assert (P1 : 0 < 2 ^ (- e1)) by (apply Z.pow_pos_nonneg; lia).
  assert (P2 : 0 < 2 ^ (- e2)) by (apply Z.pow_pos_nonneg; lia).
  assert (He : e1 <= e2).
  { destruct (Z_le_gt_dec e1 e2) as [K|K]; [exact K|exfalso].
    replace (- e2) with (Z.succ (- e1) + (- e2 + e1 - 1)) in Hm2 by lia.
    rewrite Z.pow_add_r, Z.pow_succ_r in Hm2 by lia.
    assert (0 < 2 ^ (- e2 + e1 - 1)) by (apply Z.pow_pos_nonneg; lia).
    assert (S1 : Z.pos m1 <= Z.of_nat b * 2 ^ (- e1))
      by (rewrite Hm1; apply Z.mul_le_mono_nonneg_r; lia).
    assert (S2 : Z.of_nat b * 2 ^ (- e1)
                 <= Z.of_nat b * 2 ^ (- e1) * 2 ^ (- e2 + e1 - 1)) by nia.
    lia. }
  assert (He1' : -53 < e1).
  { destruct (Z_lt_le_dec (-53) e1) as [K|K]; [exact K|exfalso].
    pose proof (Z.pow_le_mono_r 2 53 (- e1) ltac:(lia) ltac:(lia)) as Q.
    change (2 ^ 53) with 9007199254740992 in Q. nia. }
  unfold SFdiv, SFdiv_core_binary. cbn [Zdigits2 xorb]. rewrite Hd1, Hd2.
  replace (Z.min (fexp prec emax (53 + e1 - (53 + e2))) (e1 - e2)) with (e1 - e2 - 53)
    by (unfold fexp, SpecFloat.emin, prec, emax; lia).
  replace (e1 - e2 - (e1 - e2 - 53)) with 53 by lia.
  cbv iota beta.
  rewrite Z.shiftl_mul_pow2 by lia.
  pose proof (Z.div_pos (Z.pos m1 * 2 ^ 53) (Z.pos m2)) as Hq.
  pose proof (Z.div_le_upper_bound (Z.pos m1 * 2 ^ 53) (Z.pos m2)
                (2 ^ (53 + e2 - e1))) as Hu.
  unfold Z.div in Hq, Hu.
  destruct (Z.div_eucl (Z.pos m1 * 2 ^ 53) (Z.pos m2)) as [q r]. cbn [fst] in Hq, Hu.
  apply (binary_round_aux_at_most 4503599627370496 (-52)); try reflexivity;
    try lia.
  - unfold prec, emax. lia.
  - replace (-52 - (e1 - e2 - 53)) with (Z.succ (53 + e2 - e1 - 53)) by lia.
    rewrite Z.pow_succ_r by lia.
    assert (Hq' : q <= 2 ^ (53 + e2 - e1)).
    { apply Hu; [lia|].
      rewrite Hm1, Hm2.
      replace (53 + e2 - e1) with (53 + (- e1 - - e2)) by lia.
      rewrite (Z.pow_add_r 2 53) by lia.
      replace (- e1) with (- e2 + (- e1 - - e2)) at 1 by lia.
      rewrite (Z.pow_add_r 2 (- e2)) by lia.
      assert (0 < 2 ^ (- e1 - - e2)) by (apply Z.pow_pos_nonneg; lia).
      assert (0 < 2 ^ 53) by (apply Z.pow_pos_nonneg; lia).
      assert (Z.of_nat (S a) <= Z.of_nat b) by lia.
      nia. }
    replace (53 + e2 - e1 - 53) with (e2 - e1) by lia.
    replace (53 + e2 - e1) with (53 + (e2 - e1)) in Hq' by lia.
    rewrite Z.pow_add_r in Hq' by lia.
    change (2 ^ 53) with 9007199254740992 in Hq'.
    assert (0 < 2 ^ (e2 - e1)) by (apply Z.pow_pos_nonneg; lia).
    lia.
Qed.

(** *** The three operations on a quotient that is at most 1 *)

Lemma mul_fifth_at_most (x : spec_float) :
  valid_binary x = true -> signed false x -> at_most x one_key ->
  at_most (SFmul prec emax x (S754_finite false fifths (-55))) (1, -55, Z.pos fifths)
  /\ signed false (SFmul prec emax x (S754_finite false fifths (-55))).
Proof.
  intros Hv Hs Hx. split; [|apply SFmul_nonneg; [exact Hs | now eexists _, _]].
  destruct x as [sx|sx| |sx mx ex]; simpl in Hs; try contradiction; subst sx.
  - unfold at_most, SFmul, fkey, key_le. cbn [xorb]. lia.
  - unfold at_most, fkey, key_le in Hx. lia.
  - unfold at_most in Hx. cbn [fkey] in Hx.
    destruct (at_most_one_value mx ex Hv Hx) as [He Hm].
    unfold SFmul. cbn [xorb].
    apply (binary_round_aux_at_most fifths (-55)); try reflexivity; try lia.
    + unfold prec, emax. lia.
    + replace (-55 - (ex + -55)) with (- ex) by lia.
      rewrite Pos2Z.inj_mul.
      assert (0 < 2 ^ (- ex)) by (apply Z.pow_pos_nonneg; lia). nia.
Qed.

Lemma add_four_fifths_range (y : spec_float) :
  valid_binary y = true -> signed false y -> at_most y (1, -55, Z.pos fifths) ->
  at_most (SFadd prec emax (S754_finite false fifths (-53)) y) one_key
  /\ at_least (SFadd prec emax (S754_finite false fifths (-53)) y)
              (1, -53, Z.pos fifths).
Proof.
  intros Hv Hs Hy.
  destruct y as [sy|sy| |sy my ey]; simpl in Hs; try contradiction; subst sy.
  - unfold at_most, at_least, SFadd, fkey, key_le. lia.
  - unfold at_most, fkey, key_le in Hy. lia.
  - unfold at_most in Hy. cbn [fkey] in Hy. unfold key_le in Hy.
    apply valid_finite in Hv as (_ & _ & Hm).
    change (2 ^ 53) with 9007199254740992 in Hm.
    assert (He : ey <= -55) by lia.
    assert (Ht : 0 < 2 ^ (-55 - ey)) by (apply Z.pow_pos_nonneg; lia).
    assert (Hval : Z.pos my <= Z.pos fifths * 2 ^ (-55 - ey)).
    { destruct (Z.eq_dec ey (-55)) as [-> |E]; [simpl; lia|].
      rewrite (pow2_split (-55 - ey)) by lia.
      assert (0 < 2 ^ (-55 - ey - 1)) by (apply Z.pow_pos_nonneg; lia). lia. }
    unfold SFadd. rewrite Z.min_r by lia. cbn [cond_Zopp].
    destruct (shl_align_down fifths (-53) ey ltac:(lia)) as [_ Ha].
    destruct (shl_align_down my ey ey ltac:(lia)) as [_ Hb].
    rewrite Z.sub_diag, Z.pow_0_r, Z.mul_1_r in Hb.
    replace (-53 - ey) with (2 + (-55 - ey)) in Ha by lia.
    rewrite Z.pow_add_r in Ha by lia. change (2 ^ 2) with 4 in Ha.
    rewrite <- Pos2Z.inj_add. unfold binary_normalize.
    split.
    + apply (binary_round_at_most 4503599627370496 (-52)); try reflexivity; try lia.
      * unfold prec, emax. lia.
      * rewrite Pos2Z.inj_add, Ha, Hb.
        replace (-52 - ey) with (3 + (-55 - ey)) by lia.
        rewrite Z.pow_add_r by lia. change (2 ^ 3) with 8. lia.
    + apply (binary_round_at_least fifths (-53)); try reflexivity; try lia.
      rewrite Pos2Z.inj_add, Ha, Hb.
      replace (-53 - ey) with (2 + (-55 - ey)) by lia.
      rewrite Z.pow_add_r by lia. change (2 ^ 2) with 4. lia.
Qed.

Lemma sub_from_one_range (x : spec_float) :
  valid_binary x = true -> signed false x -> at_most x one_key ->
  at_most (SFsub prec emax (S754_finite false 4503599627370496 (-52)) x) one_key
  /\ at_least (SFsub prec emax (S754_finite false 4503599627370496 (-52)) x) (0, 0, 0).
Proof.
  intros Hv Hs Hx.
  destruct x as [sx|sx| |sx mx ex]; simpl in Hs; try contradiction; subst sx.
  - unfold at_most, at_least, SFsub, fkey, key_le. lia.
  - unfold at_most, fkey, key_le in Hx. lia.
  - unfold at_most in Hx. cbn [fkey] in Hx.
    destruct (at_most_one_value mx ex Hv Hx) as [He Hm].
    unfold SFsub. rewrite Z.min_r by lia. cbn [cond_Zopp].
    destruct (shl_align_down 4503599627370496 (-52) ex ltac:(lia)) as [_ Ha].
    destruct (shl_align_down mx ex ex ltac:(lia)) as [_ Hb].
    rewrite Z.sub_diag, Z.pow_0_r, Z.mul_1_r in Hb.
    assert (Hone : Z.pos (fst (shl_align 4503599627370496 (-52) ex)) = 2 ^ (- ex)).
    { rewrite Ha. change (Z.pos 4503599627370496) with (2 ^ 52).
      rewrite <- Z.pow_add_r by lia. f_equal. lia. }
    unfold binary_normalize.
    destruct (Z.pos (fst (shl_align 4503599627370496 (-52) ex))
              - Z.pos (fst (shl_align mx ex ex))) as [|p|p] eqn:D; try lia.
    + unfold at_most, at_least, fkey, key_le. lia.
    + split.
      * apply (binary_round_at_most 4503599627370496 (-52)); try reflexivity;
          try lia.
        unfold prec, emax. lia.
      * pose proof (binary_round_signed false p ex) as Hsg.
        unfold at_least.
        destruct (binary_round prec emax false p ex) as [s|s| |s m e];
          simpl in Hsg; try contradiction; subst s; cbn [fkey]; unfold key_le; lia.
Qed.

End ScoreRange.

Section SimilarityRange.

Import FloatOrder.

Variables name1 name2 : jsstring.
Hypothesis short1 : (Z.of_nat (length name1) <= JsNumber.max_string_length)%Z.
Hypothesis short2 : (Z.of_nat (length name2) <= JsNumber.max_string_length)%Z.

Local Abbreviation one_key := (1, -52, 4503599627370496)%Z.
Local Abbreviation four_fifths_key := (1, -53, 7205759403792794)%Z.

(** The quotient of [calculate_similarity]: a length or a distance that is
    at most the greater length, divided by it. *)
Lemma quotient_at_most_one (n : nat) :
  str_eqb name1 name2 = false -> n <= Nat.max (length name1) (length name2) ->
  let q := (JsNumber.of_nat n
            / JsNumber.of_nat (Nat.max (length name1) (length name2)))%float in
  valid_binary (Prim2SF q) = true /\ signed false (Prim2SF q)
  /\ at_most (Prim2SF q) one_key.
Proof.
  intros E Hn q. pose proof (different_names_longer name1 name2 E) as Hmax.
  split; [apply Prim2SF_valid|]. unfold q. rewrite FloatAxioms.div_spec. split.
  - apply SFdiv_nonneg; [apply of_nat_finite_nonneg | apply of_nat_positive]; lia.
  - apply div_of_nat_at_most_one; lia.
Qed.

Lemma containing_keys :
  str_eqb name1 name2 = false ->
  let q := (JsNumber.of_nat (Nat.min (length name1) (length name2))
            / JsNumber.of_nat (Nat.max (length name1) (length name2)))%float in
  at_most (Prim2SF (0.8 + q * 0.2)%float) one_key
  /\ at_least (Prim2SF (0.8 + q * 0.2)%float) four_fifths_key.
Proof.
  intros E q.
  destruct (quotient_at_most_one (Nat.min (length name1) (length name2)) E)
    as (Hv & Hs & Hq); [lia|]. fold q in Hv, Hs, Hq.
  destruct (mul_fifth_at_most (Prim2SF q) Hv Hs Hq) as [Hy Hys].
  change (S754_finite false 7205759403792794 (-55)) with (Prim2SF 0.2) in Hy, Hys.
  rewrite <- FloatAxioms.mul_spec in Hy, Hys.
  rewrite FloatAxioms.add_spec.
  change (Prim2SF 0.8) with (S754_finite false 7205759403792794 (-53)).
  apply add_four_fifths_range; [apply Prim2SF_valid | exact Hys | exact Hy].
Qed.

Lemma distance_keys (d : nat) :
  str_eqb name1 name2 = false -> d <= Nat.max (length name1) (length name2) ->
  let q := (JsNumber.of_nat d
            / JsNumber.of_nat (Nat.max (length name1) (length name2)))%float in
  at_most (Prim2SF (1 - q)%float) one_key
  /\ at_least (Prim2SF (1 - q)%float) (0, 0, 0)%Z.
Proof.
  intros E Hd q.
  destruct (quotient_at_most_one d E Hd) as (Hv & Hs & Hq). fold q in Hv, Hs, Hq.
  rewrite FloatAxioms.sub_spec.
  change (Prim2SF 1) with (S754_finite false 4503599627370496 (-52)).
  now apply sub_from_one_range.
Qed.

Lemma at_least_weaken (x : spec_float) (a b : Z * Z * Z) :
  key_le a b -> at_least x b -> at_least x a.
Proof.
  unfold at_least. destruct (fkey x) as [[[c e] m]|]; [|easy].
  destruct a as [[c1 e1] m1], b as [[c2 e2] m2]. unfold key_le. lia.
Qed.

Lemma calculate_similarity_keys :
  at_least (Prim2SF (calculate_similarity name1 name2)) (0, 0, 0)%Z
  /\ at_most (Prim2SF (calculate_similarity name1 name2)) one_key.
Proof.
  unfold calculate_similarity.
  destruct (str_eqb name1 name2) eqn:E.
  { unfold at_least, at_most. change (fkey (Prim2SF 1)) with (Some one_key).
    unfold key_le. lia. }
  destruct (includes name1 name2 || includes name2 name1).
  - destruct (containing_keys E) as [Hmost Hleast]. split; [|exact Hmost].
    apply (at_least_weaken _ (0, 0, 0)%Z four_fifths_key); [|exact Hleast].
    unfold key_le. lia.
  - rewrite levenshtein_distance_lev.
    destruct (distance_keys (lev name1 name2) E (lev_le_max name1 name2))
      as [Hmost Hleast].
    split; [exact Hleast | exact Hmost].
Qed.

Lemma calculate_similarity_is_number :
  PrimFloat.is_nan (calculate_similarity name1 name2) = false.
Proof.
  apply is_nan_false. destruct calculate_similarity_keys as [_ H].
  unfold at_most in H. intros N. now rewrite N in H.
Qed.

Lemma containing_at_least :
  includes name1 name2 || includes name2 name1 = true ->
  at_least (Prim2SF (calculate_similarity name1 name2)) four_fifths_key.
Proof.
  intros Hin. unfold calculate_similarity.
  destruct (str_eqb name1 name2) eqn:E.
  { unfold at_least. change (fkey (Prim2SF 1)) with (Some one_key).
    unfold key_le. lia. }
  rewrite Hin. now apply containing_keys.
Qed.

End SimilarityRange.

(** X6. A score of [calculate_similarity] lies between 0 and 1 (for names
    within the length bound of strings); in particular it is never NaN, and
    1 is the greatest score there is. *)
Theorem calculate_similarity_range (name1 name2 : jsstring)
    (H1 : (Z.of_nat (length name1) <= JsNumber.max_string_length)%Z)
    (H2 : (Z.of_nat (length name2) <= JsNumber.max_string_length)%Z) :
  PrimFloat.leb 0 (calculate_similarity name1 name2) = true
  /\ PrimFloat.leb (calculate_similarity name1 name2) 1 = true.
Proof.
  destruct (calculate_similarity_keys name1 name2 H1 H2) as [Hleast Hmost].
  split; apply leb_fle; unfold FloatOrder.fle, FloatOrder.key.
  - change (FloatOrder.fkey (Prim2SF 0)) with (Some (0, 0, 0)%Z). exact Hleast.
  - change (FloatOrder.fkey (Prim2SF 1)) with (Some (1, -52, 4503599627370496)%Z).
    unfold FloatOrder.at_most in Hmost.
    now destruct (FloatOrder.fkey (Prim2SF (calculate_similarity name1 name2))).
Qed.

Lemma calculate_similarity_range_witness :
  PrimFloat.leb 0 (calculate_similarity (str "hand_left") (str "hand_right")) = true
  /\ PrimFloat.leb (calculate_similarity (str "hand_left") (str "hand_right")) 1 = true.
Proof.
  apply calculate_similarity_range; vm_compute; discriminate.
Defined.

(** X7. When one name contains the other, the score is at least 0.8, so it
    reaches the threshold 0.6 of [find_best_match] whatever the lengths
    are. *)
Theorem calculate_similarity_containing (name1 name2 : jsstring)
    (H1 : (Z.of_nat (length name1) <= JsNumber.max_string_length)%Z)
    (H2 : (Z.of_nat (length name2) <= JsNumber.max_string_length)%Z)
    (H : includes name1 name2 || includes name2 name1 = true) :
  PrimFloat.leb 0.8 (calculate_similarity name1 name2) = true
  /\ PrimFloat.leb threshold (calculate_similarity name1 name2) = true.
Proof.
  pose proof (containing_at_least name1 name2 H1 H2 H) as Hleast.
  unfold FloatOrder.at_least in Hleast.
  split; apply leb_fle; unfold FloatOrder.fle, FloatOrder.key.
  - change (FloatOrder.fkey (Prim2SF 0.8)) with (Some (1, -53, 7205759403792794)%Z).
    exact Hleast.
  - change (FloatOrder.fkey (Prim2SF threshold))
      with (Some (1, -53, 5404319552844595)%Z).
    destruct (FloatOrder.fkey (Prim2SF (calculate_similarity name1 name2)))
      as [[[c e] m]|]; [|contradiction].
    unfold FloatOrder.key_le in *. lia.
Qed.

Lemma calculate_similarity_containing_witness :
  PrimFloat.leb 0.8 (calculate_similarity (str "hand") (str "lefthand")) = true
  /\ PrimFloat.leb threshold (calculate_similarity (str "hand") (str "lefthand")) = true.
Proof.
  apply calculate_similarity_containing; vm_compute; (discriminate || reflexivity).
Defined.

(* ================================================================= *)
(** ** Further properties: which source [find_best_match] returns *)

Section BestMatchChoice.

Variable target_bone : jsstring.

Local Abbreviation nt := (normalize_bone_name target_bone).

Lemma consider_score (b : best) (src : jsstring) :
  consider nt b src =
  if PrimFloat.ltb (snd b) (score target_bone src)
     && PrimFloat.leb threshold (score target_bone src)
  then (Some src, score target_bone src) else b.
Proof. reflexivity. Qed.

Lemma consider_keeps_some (l : list jsstring) :
  forall b, fst b <> None -> fst (fold_left (consider nt) l b) <> None.
Proof.
  induction l as [|x l IH]; intros b Hb; [exact Hb|].
  cbn [fold_left]. apply IH. rewrite consider_score.
  destruct (_ && _); [discriminate | exact Hb].
Qed.

(** Once a source reaches the threshold, the scan holds a candidate. *)
Lemma consider_finds (l : list jsstring) :
  forall b,
  (fst b = None -> snd b = 0%float) ->
  (exists src, In src l /\ PrimFloat.leb threshold (score target_bone src) = true) ->
  fst (fold_left (consider nt) l b) <> None.
Proof.
  induction l as [|x l IH]; intros b Hb [src [Hin Hsrc]]; [contradiction|].
  cbn [fold_left]. rewrite consider_score.
  destruct (PrimFloat.ltb (snd b) (score target_bone x)
            && PrimFloat.leb threshold (score target_bone x)) eqn:C.
  - apply consider_keeps_some. discriminate.
  - destruct Hin as [->|Hin].
    + apply consider_keeps_some. intros Hnone.
      rewrite (Hb Hnone), (accepted_above_zero _ Hsrc), Hsrc in C. discriminate.
    + apply IH; [exact Hb | now exists src].
Qed.

(** What the scan knows about the sources [seen] so far: the best score is
    the score of the best match and reaches the threshold, and no source
    seen that reaches the threshold scores above it. *)
Lemma consider_best (l : list jsstring) :
  forall (seen : jsstring -> Prop) (b : best),
  (forall s, fst b = Some s ->
             snd b = score target_bone s /\ PrimFloat.leb threshold (snd b) = true) ->
  (forall src, seen src ->
               PrimFloat.ltb (snd b) (score target_bone src) = false
               \/ PrimFloat.leb threshold (score target_bone src) = false) ->
  let b' := fold_left (consider nt) l b in
  (forall s, fst b' = Some s ->
             snd b' = score target_bone s /\ PrimFloat.leb threshold (snd b') = true)
  /\ (forall src, seen src \/ In src l ->
                  PrimFloat.ltb (snd b') (score target_bone src) = false
                  \/ PrimFloat.leb threshold (score target_bone src) = false).
Proof.
  induction l as [|x l IH]; intros seen b Hb Hseen; cbv zeta.
  - split; [exact Hb | intros src [H|[]]; now apply Hseen].
  - cbn [fold_left].
    destruct (IH (fun src => seen src \/ src = x) (consider nt b x)) as [H1 H2].
    + rewrite consider_score.
      destruct (PrimFloat.ltb (snd b) (score target_bone x)) eqn:L;
        destruct (PrimFloat.leb threshold (score target_bone x)) eqn:T;
        cbn [andb]; try exact Hb.
      intros s [= <-]. now split.
    + rewrite consider_score. intros src [Hs| ->].
      * destruct (PrimFloat.ltb (snd b) (score target_bone x)) eqn:L;
          destruct (PrimFloat.leb threshold (score target_bone x)) eqn:T;
          cbn [andb]; try (now apply Hseen).
        cbn [snd]. destruct (Hseen src Hs) as [H|H]; [left | now right].
        now apply (not_above_new_best (snd b)).
      * destruct (PrimFloat.ltb (snd b) (score target_bone x)) eqn:L;
          destruct (PrimFloat.leb threshold (score target_bone x)) eqn:T;
          cbn [andb snd]; auto.
        left. apply ltb_irrefl.
    + split; [exact H1|]. intros src [Hs|[<-|Hin]]; apply H2; auto.
Qed.

End BestMatchChoice.

(** No source scores strictly above the one that is returned. *)
Lemma find_best_match_not_above (target_bone : jsstring) (source_bones : list jsstring)
    (s : jsstring) :
  find_best_match target_bone source_bones = Some s ->
  forall src, In src source_bones ->
              PrimFloat.ltb (score target_bone s) (score target_bone src) = false.
Proof.
  intros H src Hin. unfold find_best_match in H. cbv zeta in H.
  destruct (consider_best target_bone source_bones (fun _ => False) (None, 0%float))
    as [H1 H2].
  - intros s' [=].
  - intros src' [].
  - destruct (H1 s H) as [Hs Ht]. rewrite <- Hs.
    destruct (H2 src (or_intror Hin)) as [K|K]; [exact K|].
    now apply (rejected_not_above threshold).
Qed.

(** A source that reaches the threshold leaves the target with a match. *)
Lemma find_best_match_found (target_bone : jsstring) (source_bones : list jsstring)
    (src : jsstring) :
  In src source_bones -> PrimFloat.leb threshold (score target_bone src) = true ->
  exists s, find_best_match target_bone source_bones = Some s.
Proof.
  intros Hin Hsrc.
  destruct (find_best_match target_bone source_bones) as [s|] eqn:E;
    [now exists s | exfalso].
  revert E. unfold find_best_match. cbv zeta.
  apply consider_finds; [reflexivity | now exists src].
Qed.

(** X8. [find_best_match] returns no source exactly when every source
    scores below the threshold: a target with a source that reaches 0.6 is
    never left without a match. *)
Theorem find_best_match_none_iff (target_bone : jsstring) (source_bones : list jsstring) :
  find_best_match target_bone source_bones = None <->
  forall src, In src source_bones ->
              PrimFloat.leb 0.6 (score target_bone src) = false.
Proof.
  split; [|apply find_best_match_none].
  intros Hnone src Hin.
  destruct (PrimFloat.leb 0.6 (score target_bone src)) eqn:E; [|reflexivity].
  exfalso. revert Hnone. unfold find_best_match. cbv zeta.
  apply consider_finds; [reflexivity | now exists src].
Qed.

(** X9. The source [find_best_match] returns has a maximal score: no source
    of the list scores strictly above it, and, the normalized names being
    within the length bound of strings (so that every score is a number),
    every source of the list scores at most as much. *)
Theorem find_best_match_maximal (target_bone : jsstring) (source_bones : list jsstring)
    (s : jsstring) (H : find_best_match target_bone source_bones = Some s) :
  (forall src, In src source_bones ->
               PrimFloat.ltb (score target_bone s) (score target_bone src) = false)
  /\ ((forall n, n = target_bone \/ In n source_bones ->
                 (Z.of_nat (length (normalize_bone_name n))
                  <= JsNumber.max_string_length)%Z) ->
      forall src, In src source_bones ->
                  PrimFloat.leb (score target_bone src) (score target_bone s) = true).
Proof.
  pose proof (find_best_match_not_above _ _ _ H) as Hmax.
  split; [exact Hmax|].
  intros Hshort src Hin.
  pose proof (find_best_match_some _ _ _ H) as [Hs _].
  apply not_above_at_most; [| |now apply Hmax];
    unfold score; apply calculate_similarity_is_number;
    apply Hshort; auto.
Qed.

Lemma find_best_match_maximal_witness :
  (forall src, In src [str "Hand_R"; str "Hand_L"] ->
     PrimFloat.ltb (score (str "hand_left") (str "Hand_L"))
                   (score (str "hand_left") src) = false)
  /\ ((forall n, n = str "hand_left" \/ In n [str "Hand_R"; str "Hand_L"] ->
                 (Z.of_nat (length (normalize_bone_name n))
                  <= JsNumber.max_string_length)%Z) ->
      forall src, In src [str "Hand_R"; str "Hand_L"] ->
        PrimFloat.leb (score (str "hand_left") src)
                      (score (str "hand_left") (str "Hand_L")) = true).
Proof.
  apply (find_best_match_maximal (str "hand_left") [str "Hand_R"; str "Hand_L"]
           (str "Hand_L")).
  vm_compute. reflexivity.
Defined.

(** X10. Ties keep the first candidate: a source that reaches the threshold,
    scores strictly above every source before it and is not outscored by a
    source after it is the one [find_best_match] returns. *)
Theorem find_best_match_first_of_best (target_bone : jsstring)
    (before after : list jsstring) (s : jsstring)
    (Hs : PrimFloat.leb 0.6 (score target_bone s) = true)
    (Hbefore : forall p, In p before ->
                 PrimFloat.ltb (score target_bone p) (score target_bone s) = true)
    (Hafter : forall q, In q after ->
                PrimFloat.ltb (score target_bone s) (score target_bone q) = false) :
  find_best_match target_bone (before ++ s :: after) = Some s.
Proof.
  unfold find_best_match. cbv zeta. rewrite fold_left_app. cbn [fold_left].
  set (b := fold_left (consider (normalize_bone_name target_bone)) before (None, 0%float)).
  assert (Hb : snd b = 0%float \/ exists p, In p before /\ snd b = score target_bone p).
  { subst b. apply fold_left_invariant; [now left|].
    intros st x Hx Hst. rewrite consider_score.
    destruct (_ && _); [right; now exists x | exact Hst]. }
  assert (Hlt : PrimFloat.ltb (snd b) (score target_bone s) = true).
  { destruct Hb as [-> |[p [Hp ->]]]; [now apply accepted_above_zero | now apply Hbefore]. }
  rewrite consider_score, Hlt. change threshold with 0.6%float. rewrite Hs. cbn [andb].
  apply (fold_left_invariant (fun st : best => fst st = Some s
                                /\ snd st = score target_bone s)); [now split|].
  intros st x Hx [H1 H2]. rewrite consider_score, H2, (Hafter x Hx). now split.
Qed.

Lemma find_best_match_first_of_best_witness :
  find_best_match (str "hand_left")
    ([str "Hand_R"] ++ str "Hand_L" :: [str "hand-left"]) = Some (str "Hand_L").
Proof.
  apply find_best_match_first_of_best.
  - vm_compute. reflexivity.
  - intros p [<-|[]]. vm_compute. reflexivity.
  - intros q [<-|[]]. vm_compute. reflexivity.
Defined.

(** X11. A source whose normalized name is the normalized name of the
    target gives the target a match of score 1, the greatest score; it need
    not be that source, when another one has the same normalized name. *)
Theorem find_best_match_exact (target_bone : jsstring) (source_bones : list jsstring)
    (src : jsstring) (Hin : In src source_bones)
    (Heq : normalize_bone_name src = normalize_bone_name target_bone)
    (Hshort : forall n, In n source_bones ->
                (Z.of_nat (length (normalize_bone_name n))
                 <= JsNumber.max_string_length)%Z) :
  exists s, find_best_match target_bone source_bones = Some s
            /\ In s source_bones /\ score target_bone s = 1%float.
Proof.
  assert (Hsrc : score target_bone src = 1%float)
    by (unfold score, calculate_similarity; now rewrite Heq, str_eqb_refl).
  destruct (find_best_match_found target_bone source_bones src Hin) as [s Hs];
    [now rewrite Hsrc|].
  exists s. split; [exact Hs|].
  pose proof (find_best_match_some _ _ _ Hs) as [Hins _]. split; [exact Hins|].
  pose proof (find_best_match_not_above _ _ _ Hs src Hin) as Habove.
  rewrite Hsrc in Habove.
  assert (Htarget : (Z.of_nat (length (normalize_bone_name target_bone))
                     <= JsNumber.max_string_length)%Z)
    by (rewrite <- Heq; now apply Hshort).
  destruct (calculate_similarity_keys (normalize_bone_name target_bone)
              (normalize_bone_name s) Htarget (Hshort s Hins)) as [_ Hmost].
  fold (score target_bone s) in Hmost.
  apply ltb_false_iff in Habove. unfold FloatOrder.flt, FloatOrder.key in Habove.
  change (FloatOrder.fkey (Prim2SF 1)) with (Some (1, -52, 4503599627370496)%Z)
    in Habove.
  unfold FloatOrder.at_most in Hmost.
  apply Prim2SF_inj. change (Prim2SF 1) with (S754_finite false 4503599627370496 (-52)).
  destruct (Prim2SF (score target_bone s)) as [sg|sg| |sg m e];
    try destruct sg; cbn [FloatOrder.fkey] in *;
    unfold FloatOrder.key_lt, FloatOrder.key_le in *; try lia.
  assert (e = (-52)%Z /\ m = 4503599627370496%positive) as [-> ->] by lia.
  reflexivity.
Qed.

Lemma find_best_match_exact_witness :
  exists s, find_best_match (str "hand_left") [str "Hand_R"; str "Hand-Left"] = Some s
            /\ In s [str "Hand_R"; str "Hand-Left"]
            /\ score (str "hand_left") s = 1%float.
Proof.
  apply (find_best_match_exact (str "hand_left") [str "Hand_R"; str "Hand-Left"]
           (str "Hand-Left")).
  - right. left. reflexivity.
  - vm_compute. reflexivity.
  - intros n [<-|[<-|[]]]; vm_compute; discriminate.
Defined.

(** X12. A source whose normalized name contains the normalized name of the
    target, or is contained in it, always leaves the target with a match,
    and the match scores at least 0.8. *)
Theorem find_best_match_containing (target_bone : jsstring)
    (source_bones : list jsstring) (src : jsstring) (Hin : In src source_bones)
    (Hc : includes (normalize_bone_name target_bone) (normalize_bone_name src)
          || includes (normalize_bone_name src) (normalize_bone_name target_bone)
          = true)
    (Hshort : forall n, n = target_bone \/ In n source_bones ->
                (Z.of_nat (length (normalize_bone_name n))
                 <= JsNumber.max_string_length)%Z) :
  exists s, find_best_match target_bone source_bones = Some s
            /\ In s source_bones
            /\ PrimFloat.leb 0.8 (score target_bone s) = true.
Proof.
  assert (Htarget := Hshort target_bone (or_introl eq_refl)).
  assert (Hsrc := Hshort src (or_intror Hin)).
  pose proof (containing_at_least _ _ Htarget Hsrc Hc) as Hleast.
  fold (score target_bone src) in Hleast.
  assert (Hthreshold : PrimFloat.leb threshold (score target_bone src) = true).
  { apply leb_fle. unfold FloatOrder.fle, FloatOrder.key.
    change (FloatOrder.fkey (Prim2SF threshold))
      with (Some (1, -53, 5404319552844595)%Z).
    unfold FloatOrder.at_least in Hleast.
    destruct (FloatOrder.fkey (Prim2SF (score target_bone src)))
      as [[[c e] m]|]; [|contradiction].
    unfold FloatOrder.key_le in *. lia. }
  destruct (find_best_match_found target_bone source_bones src Hin Hthreshold)
    as [s Hs].
  exists s. split; [exact Hs|].
  pose proof (find_best_match_some _ _ _ Hs) as [Hins _]. split; [exact Hins|].
  pose proof (find_best_match_not_above _ _ _ Hs src Hin) as Habove.
  destruct (calculate_similarity_keys _ _ Htarget (Hshort s (or_intror Hins)))
    as [_ Hmost].
  fold (score target_bone s) in Hmost.
  apply leb_fle. apply ltb_false_iff in Habove.
  unfold FloatOrder.fle, FloatOrder.flt, FloatOrder.key in *.
  change (FloatOrder.fkey (Prim2SF 0.8)) with (Some (1, -53, 7205759403792794)%Z).
  unfold FloatOrder.at_least in Hleast. unfold FloatOrder.at_most in Hmost.
  destruct (FloatOrder.fkey (Prim2SF (score target_bone s))) as [[[c e] m]|];
    [|contradiction].
  destruct (FloatOrder.fkey (Prim2SF (score target_bone src))) as [[[c' e'] m']|];
    [|contradiction].
  unfold FloatOrder.key_lt, FloatOrder.key_le in *. lia.
Qed.

Lemma find_best_match_containing_witness :
  exists s, find_best_match (str "LeftHand") [str "Spine"; str "Hand"] = Some s
            /\ In s [str "Spine"; str "Hand"]
            /\ PrimFloat.leb 0.8 (score (str "LeftHand") s) = true.
Proof.
  apply (find_best_match_containing (str "LeftHand") [str "Spine"; str "Hand"]
           (str "Hand")).
  - right. left. reflexivity.
  - vm_compute. reflexivity.
  - intros n [->|[<-|[<-|[]]]]; vm_compute; discriminate.
Defined.

(* ================================================================= *)
(** ** Further properties: looking a target up in the mapping *)

Lemma get_auto_map_from (source_bone_names target_bone_names : list jsstring)
    (t : jsstring) :
  forall m : JsMap.t,
  JsMap.get m t = None \/ JsMap.get m t = find_best_match t source_bone_names ->
  JsMap.get (fold_left (map_target source_bone_names) target_bone_names m) t
  = if existsb (str_eqb t) target_bone_names
    then find_best_match t source_bone_names
    else JsMap.get m t.
Proof.
  induction target_bone_names as [|x l IH]; intros m Hm; [reflexivity|].
  cbn [fold_left existsb].
  assert (Hstep : JsMap.get (map_target source_bone_names m x) t
                  = if str_eqb t x
                    then match find_best_match t source_bone_names with
                         | Some bm => Some bm
                         | None => JsMap.get m t
                         end
                    else JsMap.get m t).
  { unfold map_target. rewrite (str_eqb_sym t x).
    destruct (str_eqb x t) eqn:E.
    - apply str_eqb_eq in E. subst x.
      destruct (find_best_match t source_bone_names); [|reflexivity].
      now rewrite get_set, str_eqb_refl.
    - destruct (find_best_match x source_bone_names); [|reflexivity].
      now rewrite get_set, E. }
  rewrite IH; rewrite Hstep.
  - destruct (existsb (str_eqb t) l); [now rewrite orb_true_r|].
    rewrite orb_false_r. destruct (str_eqb t x); [|reflexivity].
    destruct (find_best_match t source_bone_names); [reflexivity|].
    destruct Hm as [Hm|Hm]; exact Hm.
  - destruct (str_eqb t x); [|exact Hm].
    destruct (find_best_match t source_bone_names); [now right | exact Hm].
Qed.

(** X13. Looking a name up in the mapping of [auto_map_bones] gives the
    answer of [find_best_match] for it when it is one of the targets, and
    nothing otherwise; the other targets have no influence. *)
Theorem get_auto_map_bones (source_bone_names target_bone_names : list jsstring)
    (t : jsstring) :
  JsMap.get (auto_map_bones source_bone_names target_bone_names) t
  = if existsb (str_eqb t) target_bone_names
    then find_best_match t source_bone_names
    else None.
Proof.
  unfold auto_map_bones.
  rewrite (get_auto_map_from source_bone_names target_bone_names t JsMap.empty);
    [reflexivity | now left].
Qed.

(* ================================================================= *)
(** ** Further properties: the direct mapper *)

Section DirectMapperMore.

Variables source_bones target_bones : list BoneMetadata.

Lemma get_map_mixamo_bones (t s : jsstring) :
  JsMap.get (map_mixamo_bones source_bones target_bones) t = Some s <->
  In s (map name source_bones)
  /\ lookup BONE_MAP s = Some t
  /\ In t (map name target_bones).
Proof.
  unfold map_mixamo_bones.
  rewrite (get_fold_map_source target_bones source_bones t s JsMap.empty).
  - cbn [JsMap.get JsMap.empty]. intuition discriminate.
  - intros s' [=].
Qed.

(** Every name the table expects carries the signature of the rig. *)
Lemma BONE_MAP_values_signed (k v : jsstring) :
  lookup BONE_MAP k = Some v -> includes (toLowerCase v) signature = true.
Proof.
  intros H. apply lookup_in in H.
  assert (A : forallb (fun kv => includes (toLowerCase (snd kv)) signature) BONE_MAP = true)
    by (vm_compute; reflexivity).
  rewrite forallb_forall in A. exact (A (k, v) H).
Qed.

Lemma map_source_unrecognised (m : JsMap.t) (sb : BoneMetadata) :
  is_target_valid_skeleton (map name target_bones) = false ->
  map_source target_bones m sb = m.
Proof.
  intros Hno. unfold map_source.
  destruct (lookup BONE_MAP (name sb)) as [e|] eqn:L; [|reflexivity].
  destruct (find _ target_bones) as [tb|] eqn:F; [|reflexivity].
  apply find_target_some in F as [_ Hin].
  exfalso. apply not_true_iff_false in Hno. apply Hno.
  unfold is_target_valid_skeleton. apply existsb_exists.
  exists e. split; [exact Hin | now apply (BONE_MAP_values_signed (name sb))].
Qed.

End DirectMapperMore.

(** X14. The direct mapper is one-to-one: it never gives one source bone to
    two target names, and every pair it records is a pair of the table. *)
Theorem map_mixamo_bones_injective (source_bones target_bones : list BoneMetadata)
    (t1 t2 s : jsstring)
    (H1 : JsMap.get (map_mixamo_bones source_bones target_bones) t1 = Some s)
    (H2 : JsMap.get (map_mixamo_bones source_bones target_bones) t2 = Some s) :
  t1 = t2 /\ lookup BONE_MAP s = Some t1.
Proof.
  apply get_map_mixamo_bones in H1 as [_ [L1 _]].
  apply get_map_mixamo_bones in H2 as [_ [L2 _]].
  split; [congruence | exact L1].
Qed.

Lemma map_mixamo_bones_injective_witness :
  str "mixamorigLeftHand" = str "mixamorigLeftHand"
  /\ lookup BONE_MAP (str "hand_l") = Some (str "mixamorigLeftHand").
Proof.
  apply (map_mixamo_bones_injective
           [ {| name := str "hand_l" |}; {| name := str "hand_r" |} ]
           [ {| name := str "mixamorigRightHand" |}; {| name := str "mixamorigLeftHand" |} ]);
    vm_compute; reflexivity.
Defined.

(** X15. When [is_target_valid_skeleton] rejects the names of the target
    bones, [map_mixamo_bones] maps nothing: every name of the table carries
    the signature that the recognition looks for. *)
Theorem map_mixamo_bones_unrecognised (source_bones target_bones : list BoneMetadata)
    (H : is_target_valid_skeleton (map name target_bones) = false) :
  map_mixamo_bones source_bones target_bones = JsMap.empty.
Proof.
  unfold map_mixamo_bones.
  apply (fold_left_invariant (fun m : JsMap.t => m = JsMap.empty)); [reflexivity|].
  intros m sb _ ->. now apply map_source_unrecognised.
Qed.

Lemma map_mixamo_bones_unrecognised_witness :
  map_mixamo_bones [ {| name := str "pelvis" |} ] [ {| name := str "Hips" |} ]
  = JsMap.empty.
Proof.
  apply map_mixamo_bones_unrecognised. vm_compute. reflexivity.
Defined.

(** X16. With no source bones or no target bones, both mappers return the
    empty mapping. *)
Theorem mappers_on_empty_input :
  (forall target_bone_names, auto_map_bones [] target_bone_names = JsMap.empty)
  /\ (forall source_bone_names, auto_map_bones source_bone_names [] = JsMap.empty)
  /\ (forall target_bones, map_mixamo_bones [] target_bones = JsMap.empty)
  /\ (forall source_bones, map_mixamo_bones source_bones [] = JsMap.empty).
Proof.
  repeat split.
  - intros target_bone_names. unfold auto_map_bones.
    apply (fold_left_invariant (fun m : JsMap.t => m = JsMap.empty)); [reflexivity|].
    now intros m t _ ->.
  - intros source_bones. unfold map_mixamo_bones.
    apply (fold_left_invariant (fun m : JsMap.t => m = JsMap.empty)); [reflexivity|].
    intros m sb _ ->. now apply map_source_unrecognised.
Qed.

(* ================================================================= *)
(** ** Further properties: track names *)

Section TrackNames.

Import RetargetUtils.

Lemma split_at_first (x : ascii) (a : jsstring) :
  forall a' b b',
  ~ In x a -> ~ In x a' -> a ++ x :: b = a' ++ x :: b' -> a = a' /\ b = b'.
Proof.
  induction a as [|c a IH]; intros [|c' a'] b b' Ha Ha' H; simpl in *.
  - injection H as ->. now split.
  - injection H as -> _. exfalso. apply Ha'. now left.
  - injection H as -> _. exfalso. apply Ha. now left.
  - injection H as -> H. destruct (IH a' b b') as [-> ->]; auto.
Qed.

Lemma split_at_last (x : ascii) (a a' b b' : jsstring) :
  ~ In x b -> ~ In x b' -> a ++ x :: b = a' ++ x :: b' -> a = a' /\ b = b'.
Proof.
  intros Hb Hb' H. apply (f_equal (@rev ascii)) in H.
  rewrite !rev_app_distr in H. simpl in H. rewrite <- !app_assoc in H. simpl in H.
  apply split_at_first in H as [H1 H2]; try (rewrite <- in_rev; assumption).
  apply (f_equal (@rev ascii)) in H1, H2. rewrite !rev_involutive in H1, H2.
  now split.
Qed.

End TrackNames.

(** X17. A track name determines its bone name and its property, as long as
    the properties contain no period. *)
Theorem create_track_name_unambiguous (bone1 property1 bone2 property2 : jsstring)
    (H1 : ~ In "."%char property1)
    (H2 : ~ In "."%char property2)
    (H : RetargetUtils.create_track_name bone1 property1
         = RetargetUtils.create_track_name bone2 property2) :
  bone1 = bone2 /\ property1 = property2.
Proof.
  unfold RetargetUtils.create_track_name in H. cbn [str String.list_ascii_of_string app] in H.
  now apply (split_at_last "."%char).
Qed.

Lemma create_track_name_unambiguous_witness :
  str "Arm.L" = str "Arm.L" /\ str "position" = str "position".
Proof.
  apply (create_track_name_unambiguous (str "Arm.L") (str "position")
           (str "Arm.L") (str "position")).
  - vm_compute. intuition discriminate.
  - vm_compute. intuition discriminate.
  - reflexivity.
Defined.

(* ================================================================= *)
(** ** Further properties: what a normalized name looks like *)

Section NormalizedNames.



Lemma settled_char_plain (c : ascii) :
  settled_char c = true ->
  in_range 65 90 c = false /\ is_separator c = false /\ lower_char c = c.
Proof. destruct c as [[] [] [] [] [] [] [] []]; simpl; intros H; try discriminate H; auto. Qed.



End NormalizedNames.

(** X18. A normalized name holds no capital letter A-Z, no hyphen, no period
    and no whitespace, and lowercasing it again changes none of its code
    units. *)
Theorem normalize_bone_name_alphabet (bone_name : jsstring) (c : ascii)
    (H : In c (normalize_bone_name bone_name)) :
  in_range 65 90 c = false /\ is_separator c = false /\ lower_char c = c.
Proof.
  apply settled_char_plain.
  assert (S := settled_normalize bone_name). unfold settled in S.
  rewrite forallb_forall in S. now apply S.
Qed.

Lemma normalize_bone_name_alphabet_witness :
  in_range 65 90 "h"%char = false /\ is_separator "h"%char = false
  /\ lower_char "h"%char = "h"%char.
Proof.
  apply (normalize_bone_name_alphabet (str "Left-Hand")). vm_compute. tauto.
Defined.


(** X20. A normalized name has its side markers in one form: it holds no
    whole word "left" or "right", does not begin with "l_" or "r_" and does
    not end in "_l" or "_r". *)
Theorem normalize_bone_name_sides (bone_name : jsstring) :
  let n := normalize_bone_name bone_name in
  has_word (str "left") false n = false
  /\ has_word (str "right") false n = false
  /\ starts_with (str "l_") n = false
  /\ starts_with (str "r_") n = false
  /\ ends_with (str "_l") n = false
  /\ ends_with (str "_r") n = false.
Proof.
  exact (sides_settled (strip_rig_prefix (replace_separators (toLowerCase bone_name)))).
Qed.
